(** * Cost tracking and background job queue

    A shallow embedding of the migration "Cost Tracking & Background Job
    Queue": the tables [daily_usage_metrics] and [job_queue], the trigger
    [update_job_queue_timestamp] and the PL/pgSQL functions
    [increment_usage_metric], [enqueue_job], [get_next_job], [complete_job]
    and [cleanup_old_jobs].

    Conventions of the embedding.
    - A table with a unique key is a finite map from the key to the other
      columns: [job_queue] is keyed by its primary key [id],
      [daily_usage_metrics] by its [UNIQUE(date, provider, service)] triple.
    - [integer] columns are [Z]; arithmetic on them raises
      "integer out of range" outside the 32-bit range, as PostgreSQL does.
    - [timestamptz] values are [Z], microseconds since the PostgreSQL epoch;
      the session time zone is UTC, so that one day is 86400 seconds.
    - [now()] and [gen_random_uuid()] are explicit arguments of the function
      that reads them.
    - A statement that raises aborts its transaction: the function returns
      [Err] and the caller keeps the tables it had.
    - Arguments are non-NULL unless their type here is an [option].
    - Each function is one atomic step; row locks ([FOR UPDATE SKIP LOCKED])
      have no effect on a step that runs alone and are not modelled. *)

From stdpp Require Import base decidable option list gmap strings fin_maps.
From Stdlib Require Import ZArith Lia.

Local Open Scope Z_scope.

(** ** SQL values and errors *)

Inductive sql_error : Type :=
| numeric_value_out_of_range
| datetime_value_out_of_range
| unique_violation
| not_null_violation.

Inductive result (A : Type) : Type :=
| Ok (a : A)
| Err (e : sql_error).

Arguments Ok {A} a.
Arguments Err {A} e.

#[global] Instance result_ret : MRet result := fun _ a => Ok a.

#[global] Instance result_bind : MBind result := fun _ _ f m =>
  match m with
  | Ok a => f a
  | Err e => Err e
  end.

Abbreviation uuid := N.
Abbreviation timestamptz := Z.

Definition int4_min : Z := -2147483648.
Definition int4_max : Z := 2147483647.
Definition int8_max : Z := 9223372036854775807.

Definition int4 (x : Z) : Prop := int4_min ≤ x ≤ int4_max.

(** [a + b] on [integer]. *)
Definition int4_add (a b : Z) : result Z :=
  if bool_decide (int4 (a + b)) then Ok (a + b)
  else Err numeric_value_out_of_range.

(** [a + b] where [a] is a nullable [integer] column: NULL absorbs. *)
Definition int4_add_null (a : option Z) (b : Z) : result (option Z) :=
  match a with
  | None => Ok None
  | Some x => y ← int4_add x b; Ok (Some y)
  end.

Definition MIN_TIMESTAMP : Z := -211813488000000000.
Definition END_TIMESTAMP : Z := 9223371331200000000.
Definition USECS_PER_MINUTE : Z := 60000000.
Definition USECS_PER_DAY : Z := 86400000000.

Definition valid_timestamp (t : Z) : Prop := MIN_TIMESTAMP ≤ t < END_TIMESTAMP.

Definition check_timestamp (t : Z) : result timestamptz :=
  if bool_decide (valid_timestamp t) then Ok t
  else Err datetime_value_out_of_range.

(** Nearest integer to [a / b] for [0 < b], ties to even ([rint]). *)
Definition rint_div (a b : Z) : Z :=
  let q := a / b in
  let r := a mod b in
  if 2 * r <? b then q
  else if b <? 2 * r then q + 1
  else if Z.even q then q else q + 1.

(** [power(2, n) * interval '1 minute'], in microseconds.  [power] is the
    [double precision] one: it overflows from [2^1024] and underflows below
    [2^-1074]; the product must fit the 64-bit time field of an interval. *)
Definition power2_minutes (n : Z) : result Z :=
  if 1024 <=? n then Err numeric_value_out_of_range
  else if n <? -1074 then Err numeric_value_out_of_range
  else if 0 <=? n then
    let us := 2 ^ n * USECS_PER_MINUTE in
    if us <=? int8_max then Ok us else Err datetime_value_out_of_range
  else Ok (rint_div USECS_PER_MINUTE (2 ^ (- n))).

(** [now - (d || ' days')::interval]. *)
Definition days_before (now : timestamptz) (d : Z) : result timestamptz :=
  check_timestamp (now - d * USECS_PER_DAY).

(** ** Table [daily_usage_metrics] *)

Record usage_metric : Type := mk_usage_metric {
  metric_id : uuid;
  usage_count : Z;
  tokens_used : option Z;
  estimated_cost_cents : Z;
  metadata : option string;
  metric_created_at : timestamptz;
  metric_updated_at : timestamptz
}.

(** The [UNIQUE(date, provider, service)] key. *)
Abbreviation usage_key := (Z * string * string)%type.

Abbreviation daily_usage_metrics := (gmap usage_key usage_metric).

(** Some row already carries the primary key [i]. *)
Definition metric_id_taken (i : uuid) (t : daily_usage_metrics) : bool :=
  bool_decide (Exists (fun kr => metric_id kr.2 = i) (map_to_list t)).

(** The [DO UPDATE SET] clause on the conflicting row. *)
Definition accumulate (now : timestamptz) (p_usage_count p_tokens_used p_cost_cents : Z)
    (r : usage_metric) : result usage_metric :=
  u ← int4_add (usage_count r) p_usage_count;
  t ← int4_add_null (tokens_used r) p_tokens_used;
  c ← int4_add (estimated_cost_cents r) p_cost_cents;
  Ok {| metric_id := metric_id r;
        usage_count := u;
        tokens_used := t;
        estimated_cost_cents := c;
        metadata := metadata r;
        metric_created_at := metric_created_at r;
        metric_updated_at := now |}.

Definition increment_usage_metric (fresh : uuid) (now : timestamptz)
    (p_date : Z) (p_provider p_service : string)
    (p_usage_count p_tokens_used p_cost_cents : Z)
    (t : daily_usage_metrics) : result daily_usage_metrics :=
  let k := (p_date, p_provider, p_service) in
  match t !! k with
  | None =>
      if metric_id_taken fresh t then Err unique_violation
      else Ok (<[k := {| metric_id := fresh;
                         usage_count := p_usage_count;
                         tokens_used := Some p_tokens_used;
                         estimated_cost_cents := p_cost_cents;
                         metadata := Some "{}";
                         metric_created_at := now;
                         metric_updated_at := now |}]> t)
  | Some r =>
      r' ← accumulate now p_usage_count p_tokens_used p_cost_cents r;
      Ok (<[k := r']> t)
  end.

(** One call of [increment_usage_metric], with its clock and random draw. *)
Record increment_call : Type := mk_increment_call {
  call_fresh : uuid;
  call_now : timestamptz;
  call_date : Z;
  call_provider : string;
  call_service : string;
  call_usage_count : Z;
  call_tokens_used : Z;
  call_cost_cents : Z
}.

Definition call_key (c : increment_call) : usage_key :=
  (call_date c, call_provider c, call_service c).

Definition apply_call (c : increment_call) (t : daily_usage_metrics)
    : result daily_usage_metrics :=
  increment_usage_metric (call_fresh c) (call_now c) (call_date c)
    (call_provider c) (call_service c)
    (call_usage_count c) (call_tokens_used c) (call_cost_cents c) t.

(** A sequence of calls, each in its own transaction, all committed. *)
Fixpoint apply_calls (cs : list increment_call) (t : daily_usage_metrics)
    : result daily_usage_metrics :=
  match cs with
  | [] => Ok t
  | c :: cs' => t' ← apply_call c t; apply_calls cs' t'
  end.

(** The accumulators stored under a key; a key without a row has had no
    usage. *)
Definition count_of (o : option usage_metric) : Z :=
  match o with Some r => usage_count r | None => 0 end.

Definition tokens_of (o : option usage_metric) : option Z :=
  match o with Some r => tokens_used r | None => Some 0 end.

Definition cost_of (o : option usage_metric) : Z :=
  match o with Some r => estimated_cost_cents r | None => 0 end.

(** Sum of a delta over the calls issued for key [k]. *)
Definition issued (f : increment_call → Z) (k : usage_key)
    (cs : list increment_call) : Z :=
  foldr Z.add 0 (f <$> filter (fun c => call_key c = k) cs).

(** ** Table [job_queue] *)

Inductive job_status : Type := pending | processing | completed | failed.

#[global] Instance job_status_eq_dec : EqDecision job_status.
Proof. solve_decision. Defined.

(** The columns of a row other than its primary key [id]. *)
Record job : Type := mk_job {
  job_type : string;
  payload : string;
  status : job_status;
  priority : Z;
  scheduled_at : timestamptz;
  started_at : option timestamptz;
  completed_at : option timestamptz;
  error_message : option string;
  retry_count : Z;
  max_retries : Z;
  created_at : timestamptz;
  updated_at : timestamptz
}.

Abbreviation job_queue := (gmap uuid job).

(** A row as [RETURNING *] gives it: the key and the other columns. *)
Abbreviation job_row := (uuid * job)%type.

(** Trigger [job_queue_updated_at]: BEFORE UPDATE, on every updated row. *)
Definition update_job_queue_timestamp (now : timestamptz) (new : job) : job :=
  {| job_type := job_type new;
     payload := payload new;
     status := status new;
     priority := priority new;
     scheduled_at := scheduled_at new;
     started_at := started_at new;
     completed_at := completed_at new;
     error_message := error_message new;
     retry_count := retry_count new;
     max_retries := max_retries new;
     created_at := created_at new;
     updated_at := now |}.

(** [enqueue_job]: the columns not listed in the INSERT take their
    defaults. *)
Definition new_job (now : timestamptz) (p_job_type p_payload : string)
    (p_priority : Z) (p_scheduled_at : timestamptz) : job :=
  {| job_type := p_job_type;
     payload := p_payload;
     status := pending;
     priority := p_priority;
     scheduled_at := p_scheduled_at;
     started_at := None;
     completed_at := None;
     error_message := None;
     retry_count := 0;
     max_retries := 3;
     created_at := now;
     updated_at := now |}.

Definition enqueue_job (fresh : uuid) (now : timestamptz)
    (p_job_type p_payload : string) (p_priority : Z)
    (p_scheduled_at : timestamptz) (q : job_queue) : result (job_queue * uuid) :=
  match q !! fresh with
  | Some _ => Err unique_violation
  | None =>
      Ok (<[fresh := new_job now p_job_type p_payload p_priority p_scheduled_at]> q,
          fresh)
  end.

(** [WHERE status = 'pending' AND scheduled_at <= now()]. *)
Definition eligible (now : timestamptz) (j : job) : bool :=
  bool_decide (status j = pending) && (scheduled_at j <=? now).

(** [ORDER BY priority DESC, scheduled_at ASC]: [a] sorts strictly before
    [b]. *)
Definition sorts_before (a b : job) : bool :=
  (priority b <? priority a)
  || ((priority a =? priority b) && (scheduled_at a <? scheduled_at b)).

(** [LIMIT 1] of the ordered rows: a row replaces the best one so far when
    it sorts strictly before it, so that among rows the ordering does not
    separate the one met first stays. *)
Definition keep_first (best : option job_row) (r : job_row) : option job_row :=
  match best with
  | None => Some r
  | Some b => if sorts_before r.2 b.2 then Some r else Some b
  end.

Definition first_row (rows : list job_row) : option job_row :=
  foldl keep_first None rows.

(** The sub-select of [get_next_job]. *)
Definition next_candidate (now : timestamptz) (q : job_queue) : option job_row :=
  first_row (filter (fun r => eligible now r.2 = true) (map_to_list q)).

(** The SET clause of [get_next_job], then the trigger. *)
Definition claim (now : timestamptz) (j : job) : job :=
  update_job_queue_timestamp now
    {| job_type := job_type j;
       payload := payload j;
       status := processing;
       priority := priority j;
       scheduled_at := scheduled_at j;
       started_at := Some now;
       completed_at := completed_at j;
       error_message := error_message j;
       retry_count := retry_count j;
       max_retries := max_retries j;
       created_at := created_at j;
       updated_at := now |}.

(** [get_next_job]: the new table and the returned set, of at most one
    row. *)
Definition get_next_job (now : timestamptz) (q : job_queue)
    : job_queue * option job_row :=
  match next_candidate now q with
  | None => (q, None)
  | Some (i, j) => (<[i := claim now j]> q, Some (i, claim now j))
  end.

(** [complete_job], branch [p_success]: SET clause, then the trigger. *)
Definition mark_completed (now : timestamptz) (j : job) : job :=
  update_job_queue_timestamp now
    {| job_type := job_type j;
       payload := payload j;
       status := completed;
       priority := priority j;
       scheduled_at := scheduled_at j;
       started_at := started_at j;
       completed_at := Some now;
       error_message := error_message j;
       retry_count := retry_count j;
       max_retries := max_retries j;
       created_at := created_at j;
       updated_at := now |}.

(** [complete_job], branch [NOT p_success].  Every expression of the SET
    clause reads the row as it was before the UPDATE. *)
Definition mark_failed (now : timestamptz) (p_error_message : option string)
    (j : job) : result job :=
  let new_status :=
    if retry_count j >=? max_retries j then failed else pending in
  rc ← int4_add (retry_count j) 1;
  sched ← (if retry_count j <? max_retries j
           then d ← power2_minutes (retry_count j); check_timestamp (now + d)
           else Ok (scheduled_at j));
  Ok (update_job_queue_timestamp now
        {| job_type := job_type j;
           payload := payload j;
           status := new_status;
           priority := priority j;
           scheduled_at := sched;
           started_at := None;
           completed_at := completed_at j;
           error_message := p_error_message;
           retry_count := rc;
           max_retries := max_retries j;
           created_at := created_at j;
           updated_at := now |}).

Definition complete_job (now : timestamptz) (p_job_id : uuid) (p_success : bool)
    (p_error_message : option string) (q : job_queue) : result job_queue :=
  match q !! p_job_id with
  | None => Ok q
  | Some j =>
      if p_success then Ok (<[p_job_id := mark_completed now j]> q)
      else j' ← mark_failed now p_error_message j; Ok (<[p_job_id := j']> q)
  end.

(** [WHERE status IN ('completed', 'failed') AND completed_at < cutoff];
    a NULL [completed_at] makes the condition NULL and the row stays. *)
Definition purgeable (cutoff : timestamptz) (j : job) : bool :=
  (bool_decide (status j = completed) || bool_decide (status j = failed))
  && match completed_at j with
     | Some t => t <? cutoff
     | None => false
     end.

(** [cleanup_old_jobs]: the new table and [ROW_COUNT], stored in an
    [integer]. *)
Definition cleanup_old_jobs (now : timestamptz) (p_days_old : Z) (q : job_queue)
    : result (job_queue * Z) :=
  cutoff ← days_before now p_days_old;
  let q' := filter (fun r => purgeable cutoff r.2 = false) q in
  let v_deleted_count := Z.of_nat (size q) - Z.of_nat (size q') in
  if bool_decide (int4 v_deleted_count) then Ok (q', v_deleted_count)
  else Err numeric_value_out_of_range.

(** ** Clients of the queue *)

Inductive op : Type :=
| Enqueue (fresh : uuid) (p_job_type p_payload : string) (p_priority : Z)
          (p_scheduled_at : timestamptz)
| ClaimNext
| Complete (p_job_id : uuid) (p_success : bool) (p_error_message : option string)
| PurgeOld (p_days_old : Z).

Inductive reply : Type :=
| Enqueued (i : uuid)
| Claimed (r : option job_row)
| Done
| Purged (n : Z).

(** One call, made at time [now]. *)
Definition exec (now : timestamptz) (o : op) (q : job_queue)
    : result (job_queue * reply) :=
  match o with
  | Enqueue fresh ty pl pr sch =>
      '(q', i) ← enqueue_job fresh now ty pl pr sch q; Ok (q', Enqueued i)
  | ClaimNext =>
      let '(q', r) := get_next_job now q in Ok (q', Claimed r)
  | Complete i s e =>
      q' ← complete_job now i s e q; Ok (q', Done)
  | PurgeOld d =>
      '(q', n) ← cleanup_old_jobs now d q; Ok (q', Purged n)
  end.

(** The worker protocol: [complete_job] is called on a job one holds, that
    is on a job in status [processing]. *)
Definition follows_protocol (o : op) (q : job_queue) : bool :=
  match o with
  | Complete i _ _ =>
      match q !! i with
      | Some j => bool_decide (status j = processing)
      | None => false
      end
  | _ => true
  end.

(** A history of timed calls, each committed, and its replies. *)
Fixpoint run (h : list (timestamptz * op)) (q : job_queue)
    : result (job_queue * list reply) :=
  match h with
  | [] => Ok (q, [])
  | (now, o) :: h' =>
      '(q1, r) ← exec now o q;
      '(q2, rs) ← run h' q1;
      Ok (q2, r :: rs)
  end.

(** Every call of the history follows the worker protocol. *)
Fixpoint obeys (h : list (timestamptz * op)) (q : job_queue) : bool :=
  match h with
  | [] => true
  | (now, o) :: h' =>
      follows_protocol o q
      && match exec now o q with
         | Ok (q1, _) => obeys h' q1
         | Err _ => false
         end
  end.

Definition enqueues (i : uuid) (o : op) : bool :=
  match o with
  | Enqueue fresh _ _ _ _ => bool_decide (fresh = i)
  | _ => false
  end.

Definition claims (i : uuid) (r : reply) : bool :=
  match r with
  | Claimed (Some (i', _)) => bool_decide (i' = i)
  | _ => false
  end.

(** The ids a history handed out, in order. *)
Definition claimed_id (r : reply) : option uuid :=
  match r with
  | Claimed (Some (i, _)) => Some i
  | _ => None
  end.

Definition claimed_ids (rs : list reply) : list uuid := omap claimed_id rs.

Definition pending_ids (q : job_queue) : gset uuid :=
  dom (filter (fun r : job_row => status r.2 = pending) q).

(** Job [i] is out of the queue for good: not pending, retries used up. *)
Definition retired (i : uuid) (q : job_queue) : Prop :=
  ∀ j, q !! i = Some j → status j ≠ pending ∧ max_retries j ≤ retry_count j.

(** ** Sample data *)

Definition openai_chat : usage_key := (9436, "openai", "chat").

Definition five_calls_row : usage_metric :=
  {| metric_id := 1%N;
     usage_count := 5;
     tokens_used := Some 1200;
     estimated_cost_cents := 30;
     metadata := Some "{}";
     metric_created_at := 1000;
     metric_updated_at := 1000 |}.

Definition metrics_sample : daily_usage_metrics := {[ openai_chat := five_calls_row ]}.

Definition refund_row : usage_metric :=
  {| metric_id := 1%N;
     usage_count := 4;
     tokens_used := Some 1100;
     estimated_cost_cents := 25;
     metadata := Some "{}";
     metric_created_at := 1000;
     metric_updated_at := 2000 |}.

Definition calls_sample : list increment_call :=
  [ mk_increment_call 1%N 1000 9436 "openai" "chat" 1 100 3;
    mk_increment_call 2%N 1500 9436 "gemini" "report" 1 40 1;
    mk_increment_call 3%N 2000 9436 "openai" "chat" 2 250 7 ].

Definition metrics_after_sample : daily_usage_metrics :=
  Eval vm_compute in
    match apply_calls calls_sample ∅ with Ok t => t | Err _ => ∅ end.

Definition metrics_sample_after : daily_usage_metrics :=
  Eval vm_compute in
    match increment_usage_metric 2%N 2000 9436 "openai" "chat" 1 100 5
            metrics_sample with
    | Ok t => t
    | Err _ => ∅
    end.

Definition job_sample (st : job_status) (pr : Z) (sched : timestamptz)
    (done_at : option timestamptz) (rc mr : Z) : job :=
  {| job_type := "send_email";
     payload := "{}";
     status := st;
     priority := pr;
     scheduled_at := sched;
     started_at := None;
     completed_at := done_at;
     error_message := None;
     retry_count := rc;
     max_retries := mr;
     created_at := 0;
     updated_at := 0 |}.

(** Four pending jobs: a low priority one, two of priority 10, and an
    urgent one that is scheduled for later. *)
Definition queue_sample : job_queue :=
  <[1%N := job_sample pending 1 0 None 0 3]>
  (<[2%N := job_sample pending 10 5 None 0 3]>
  (<[3%N := job_sample pending 10 3 None 0 3]>
  (<[4%N := job_sample pending 99 1000 None 0 3]> ∅))).

(** One job of each status, all of them a year old at time [one_year]. *)
Definition one_year : timestamptz := 365 * USECS_PER_DAY.

Definition aged_sample : job_queue :=
  <[1%N := job_sample pending 5 0 None 0 3]>
  (<[2%N := job_sample processing 5 0 None 0 3]>
  (<[3%N := job_sample completed 5 0 (Some 100) 0 3]>
  (<[4%N := job_sample failed 5 0 None 4 3]>
  (<[5%N := job_sample completed 5 0 (Some (one_year - USECS_PER_DAY)) 0 3]> ∅)))).

(** A claimed job that allows a single retry, and its life when the
    handler always fails: failure at 10, claimed again once due, failure
    again five microseconds later. *)
Definition lone_job : job := claim 0 (job_sample pending 5 0 None 0 1).

Definition lone_queue : job_queue := {[ 7%N := lone_job ]}.

Definition lone_job_failed_once : job :=
  {| job_type := "send_email";
     payload := "{}";
     status := pending;
     priority := 5;
     scheduled_at := 60000010;
     started_at := None;
     completed_at := None;
     error_message := Some "timeout";
     retry_count := 1;
     max_retries := 1;
     created_at := 0;
     updated_at := 10 |}.

Definition lone_job_reclaimed : job := claim 60000010 lone_job_failed_once.

Definition lone_job_failed_twice : job :=
  {| job_type := "send_email";
     payload := "{}";
     status := failed;
     priority := 5;
     scheduled_at := 60000010;
     started_at := None;
     completed_at := None;
     error_message := Some "timeout";
     retry_count := 2;
     max_retries := 1;
     created_at := 0;
     updated_at := 60000015 |}.

Definition lone_queue_reclaimed : job_queue := {[ 7%N := lone_job_reclaimed ]}.

Definition lone_queue_failed_twice : job_queue :=
  {[ 7%N := lone_job_failed_twice ]}.

(** A job as [enqueue_job] makes it, claimed at once. *)
Definition fresh_job : job := claim 0 (new_job 0 "send_email" "{}" 5 0).

Definition fresh_queue : job_queue := {[ 8%N := fresh_job ]}.

Definition fresh_job_failed_once : job :=
  {| job_type := "send_email";
     payload := "{}";
     status := pending;
     priority := 5;
     scheduled_at := 60001000;
     started_at := None;
     completed_at := None;
     error_message := Some "timeout";
     retry_count := 1;
     max_retries := 3;
     created_at := 0;
     updated_at := 1000 |}.

(** The same job completed at 50, and what a second, failing
    [complete_job] at 100 makes of it. *)
Definition finished_job : job := mark_completed 50 fresh_job.

Definition finished_queue : job_queue := {[ 8%N := finished_job ]}.

Definition finished_job_reopened : job :=
  {| job_type := "send_email";
     payload := "{}";
     status := pending;
     priority := 5;
     scheduled_at := 60000100;
     started_at := None;
     completed_at := Some 50;
     error_message := Some "late";
     retry_count := 1;
     max_retries := 3;
     created_at := 0;
     updated_at := 100 |}.

(** Histories from the empty queue. *)
Definition history_claimed : list (timestamptz * op) :=
  [ (0, Enqueue 8%N "send_email" "{}" 5 0);
    (0, ClaimNext) ].

Definition history_reopened : list (timestamptz * op) :=
  [ (0, Enqueue 8%N "send_email" "{}" 5 0);
    (0, ClaimNext);
    (50, Complete 8%N true None);
    (100, Complete 8%N false (Some "late"));
    (60000100, ClaimNext) ].

Definition reopened_job : job :=
  {| job_type := "send_email";
     payload := "{}";
     status := processing;
     priority := 5;
     scheduled_at := 60000100;
     started_at := Some 60000100;
     completed_at := Some 50;
     error_message := Some "late";
     retry_count := 1;
     max_retries := 3;
     created_at := 0;
     updated_at := 60000100 |}.

Definition history_exhausted : list (timestamptz * op) :=
  [ (0, Enqueue 8%N "send_email" "{}" 5 0);
    (0, ClaimNext);
    (50, Complete 8%N true None);
    (100, Complete 8%N false (Some "late"));
    (101, Complete 8%N false (Some "late"));
    (102, Complete 8%N false (Some "late"));
    (103, Complete 8%N false (Some "late")) ].

Definition exhausted_job : job :=
  {| job_type := "send_email";
     payload := "{}";
     status := failed;
     priority := 5;
     scheduled_at := 240000102;
     started_at := None;
     completed_at := Some 50;
     error_message := Some "late";
     retry_count := 4;
     max_retries := 3;
     created_at := 0;
     updated_at := 103 |}.

(** Four claim and fail cycles of one job, by the protocol. *)
Definition history_four_failures : list (timestamptz * op) :=
  [ (0, Enqueue 8%N "send_email" "{}" 5 0);
    (0, ClaimNext);
    (100, Complete 8%N false (Some "timeout"));
    (60000100, ClaimNext);
    (60000200, Complete 8%N false (Some "timeout"));
    (180000200, ClaimNext);
    (180000300, Complete 8%N false (Some "timeout"));
    (420000300, ClaimNext);
    (420000400, Complete 8%N false (Some "timeout")) ].

Definition worn_out_job : job :=
  {| job_type := "send_email";
     payload := "{}";
     status := failed;
     priority := 5;
     scheduled_at := 420000300;
     started_at := None;
     completed_at := None;
     error_message := Some "timeout";
     retry_count := 4;
     max_retries := 3;
     created_at := 0;
     updated_at := 420000400 |}.

(** [complete_job(i, false, e)] called at each of the times [ts]. *)
Definition failures (i : uuid) (e : option string) (ts : list timestamptz)
    : list (timestamptz * op) :=
  (fun t => (t, Complete i false e)) <$> ts.

(** A queue of two due jobs and the job of [fresh_queue] enqueued anew. *)
Definition pair_queue : job_queue :=
  <[1%N := job_sample pending 1 0 None 0 3]>
  (<[2%N := job_sample pending 10 5 None 0 3]> ∅).

Definition calls_sample_reordered : list increment_call :=
  [ mk_increment_call 3%N 2000 9436 "openai" "chat" 2 250 7;
    mk_increment_call 1%N 1000 9436 "openai" "chat" 1 100 3;
    mk_increment_call 2%N 1500 9436 "gemini" "report" 1 40 1 ].

Definition metrics_after_reordered : daily_usage_metrics :=
  Eval vm_compute in
    match apply_calls calls_sample_reordered ∅ with Ok t => t | Err _ => ∅ end.

Definition three_claims : list (timestamptz * op) :=
  [ (10, ClaimNext); (11, ClaimNext); (12, ClaimNext) ].

Definition pair_queue_drained : job_queue * list reply :=
  Eval vm_compute in
    match run three_claims pair_queue with Ok x => x | Err _ => (∅, []) end.

Definition fresh_queue_worn : job_queue * list reply :=
  Eval vm_compute in
    match run (failures 8%N (Some "late") [100; 101; 102; 103]) fresh_queue with
    | Ok x => x
    | Err _ => (∅, [])
    end.

(** The job of [fresh_queue] after a second failure, at 60002000. *)
Definition fresh_job_failed_twice : job :=
  {| job_type := "send_email";
     payload := "{}";
     status := pending;
     priority := 5;
     scheduled_at := 180002000;
     started_at := None;
     completed_at := None;
     error_message := Some "timeout";
     retry_count := 2;
     max_retries := 3;
     created_at := 0;
     updated_at := 60002000 |}.

(** A row whose usage count is the largest [integer]. *)
Definition full_row : usage_metric :=
  {| metric_id := 1%N;
     usage_count := int4_max;
     tokens_used := None;
     estimated_cost_cents := 0;
     metadata := None;
     metric_created_at := 0;
     metric_updated_at := 0 |}.

(** [increment_usage_metric] as SQL can call it: the function is not
    STRICT, so that any argument may be NULL.  The row to insert is checked
    against the NOT NULL columns before the conflict is looked for; a NULL
    [p_tokens_used] is stored as it is, and added to a stored count it
    gives NULL. *)
Definition increment_usage_metric_nullable (fresh : uuid) (now : timestamptz)
    (p_date : option Z) (p_provider p_service : option string)
    (p_usage_count p_tokens_used p_cost_cents : option Z)
    (t : daily_usage_metrics) : result daily_usage_metrics :=
  match p_date, p_provider, p_service, p_usage_count, p_cost_cents with
  | Some d, Some p, Some s, Some u, Some c =>
      match p_tokens_used with
      | Some tk => increment_usage_metric fresh now d p s u tk c t
      | None =>
          match t !! (d, p, s) with
          | None =>
              if metric_id_taken fresh t then Err unique_violation
              else Ok (<[(d, p, s) := {| metric_id := fresh;
                                         usage_count := u;
                                         tokens_used := None;
                                         estimated_cost_cents := c;
                                         metadata := Some "{}";
                                         metric_created_at := now;
                                         metric_updated_at := now |}]> t)
          | Some r =>
              u' ← int4_add (usage_count r) u;
              c' ← int4_add (estimated_cost_cents r) c;
              Ok (<[(d, p, s) := {| metric_id := metric_id r;
                                    usage_count := u';
                                    tokens_used := None;
                                    estimated_cost_cents := c';
                                    metadata := metadata r;
                                    metric_created_at := metric_created_at r;
                                    metric_updated_at := now |}]> t)
          end
      end
  | _, _, _, _, _ => Err not_null_violation
  end.

(** The clock of a history does not run backwards from [T] on. *)
Fixpoint clock_ordered (T : timestamptz) (h : list (timestamptz * op)) : bool :=
  match h with
  | [] => true
  | (t, _) :: h' => (T <=? t) && clock_ordered t h'
  end.

(** The times at which a history handed out job [i]. *)
Fixpoint claim_times (i : uuid) (h : list (timestamptz * op)) (rs : list reply)
    : list timestamptz :=
  match h, rs with
  | (t, _) :: h', r :: rs' =>
      if claims i r then t :: claim_times i h' rs' else claim_times i h' rs'
  | _, _ => []
  end.

(** A job scheduled for time 100, polled before and after, failed once. *)
Definition delayed_queue : job_queue :=
  {[ 8%N := new_job 0 "send_email" "{}" 5 100 ]}.

Definition delayed_history : list (timestamptz * op) :=
  [ (50, ClaimNext);
    (100, ClaimNext);
    (150, Complete 8%N false (Some "timeout"));
    (60000149, ClaimNext);
    (60000150, ClaimNext) ].

Definition delayed_run : job_queue * list reply :=
  Eval vm_compute in
    match run delayed_history delayed_queue with
    | Ok x => x
    | Err _ => (∅, [])
    end.

(** * Properties *)

(** ** The error monad *)

Lemma bind_Ok {A B} (m : result A) (f : A → result B) (b : B) :
  m ≫= f = Ok b ↔ ∃ a, m = Ok a ∧ f a = Ok b.
Proof.
  destruct m as [a|e]; simpl; split.
  - intros H. by exists a.
  - by intros (a' & [= ->] & H).
  - intros [=].
  - by intros (a' & [=] & _).
Qed.

Lemma int4_add_Ok a b c : int4_add a b = Ok c → c = a + b ∧ int4 c.
Proof.
  unfold int4_add. case_bool_decide; intros [= <-]; done.
Qed.

Lemma int4_add_null_Ok a b c :
  int4_add_null a b = Ok c → c = (fun x => x + b) <$> a.
Proof.
  destruct a as [x|]; simpl.
  - intros H. apply bind_Ok in H as (y & Hy & [= <-]).
    apply int4_add_Ok in Hy as [-> _]. done.
  - by intros [= <-].
Qed.

Lemma check_timestamp_Ok t t' : check_timestamp t = Ok t' → t' = t ∧ valid_timestamp t.
Proof.
  unfold check_timestamp. case_bool_decide; intros [= <-]; done.
Qed.

(** ** UsageMeter *)

Lemma accumulate_Ok now u tk c r r' :
  accumulate now u tk c r = Ok r' →
  usage_count r' = usage_count r + u
  ∧ tokens_used r' = (fun x => x + tk) <$> tokens_used r
  ∧ estimated_cost_cents r' = estimated_cost_cents r + c.
Proof.
  unfold accumulate. intros H.
  apply bind_Ok in H as (u' & Hu & H).
  apply bind_Ok in H as (t' & Ht & H).
  apply bind_Ok in H as (c' & Hc & H).
  injection H as <-. simpl.
  apply int4_add_Ok in Hu as [-> _].
  apply int4_add_Ok in Hc as [-> _].
  apply int4_add_null_Ok in Ht as ->. done.
Qed.

(** What one call does to the row of any key [k]. *)
Lemma apply_call_lookup c t t' k :
  apply_call c t = Ok t' →
  if decide (call_key c = k) then
    ∃ r', t' !! k = Some r'
      ∧ usage_count r' = count_of (t !! k) + call_usage_count c
      ∧ tokens_used r' = (fun x => x + call_tokens_used c) <$> tokens_of (t !! k)
      ∧ estimated_cost_cents r' = cost_of (t !! k) + call_cost_cents c
  else t' !! k = t !! k.
Proof.
  unfold apply_call, increment_usage_metric. fold (call_key c).
  destruct (t !! call_key c) as [r|] eqn:Hr; intros H.
  - apply bind_Ok in H as (r' & Hacc & [= <-]).
    apply accumulate_Ok in Hacc as (Hu & Ht & Hc).
    case_decide as Hk.
    + subst k. exists r'. rewrite lookup_insert_eq, Hr. simpl. done.
    + by rewrite lookup_insert_ne.
  - destruct (metric_id_taken _ _); [discriminate|]. injection H as <-.
    case_decide as Hk.
    + subst k. eexists. rewrite lookup_insert_eq, Hr. simpl.
      split; [done|]. repeat split; f_equal; lia.
    + by rewrite lookup_insert_ne.
Qed.

Lemma issued_nil f k : issued f k [] = 0.
Proof. done. Qed.

Lemma issued_cons f k c cs :
  issued f k (c :: cs) =
  (if decide (call_key c = k) then f c else 0) + issued f k cs.
Proof.
  unfold issued. destruct (decide (call_key c = k)) as [Hk|Hk].
  - by rewrite filter_cons_True.
  - by rewrite filter_cons_False.
Qed.

(** The accumulators after a sequence of calls, from any table. *)
Lemma apply_calls_lookup cs : ∀ t t' k,
  apply_calls cs t = Ok t' →
  count_of (t' !! k) = count_of (t !! k) + issued call_usage_count k cs
  ∧ tokens_of (t' !! k) =
      (fun x => x + issued call_tokens_used k cs) <$> tokens_of (t !! k)
  ∧ cost_of (t' !! k) = cost_of (t !! k) + issued call_cost_cents k cs
  ∧ (is_Some (t' !! k) ↔
       is_Some (t !! k) ∨ Exists (fun c => call_key c = k) cs).
Proof.
  induction cs as [|c cs IH]; intros t t' k H; simpl in H.
  - injection H as <-. rewrite !issued_nil, !Z.add_0_r.
    repeat split; try done.
    + destruct (tokens_of (t !! k)); simpl; f_equal; lia.
    + by left.
    + intros [?|HE]; [done|]. by apply Exists_nil in HE.
  - apply bind_Ok in H as (t1 & H1 & H2).
    apply (IH _ _ k) in H2 as (Hu & Ht & Hc & Hs).
    apply (apply_call_lookup _ _ _ k) in H1.
    rewrite !issued_cons, Exists_cons.
    case_decide as Hk.
    + destruct H1 as (r1 & Hr1 & Hu1 & Ht1 & Hc1).
      rewrite Hr1 in Hu, Ht, Hc, Hs. simpl in Hu, Ht, Hc.
      rewrite Hu, Ht, Hc, Hu1, Ht1, Hc1.
      repeat split; try lia.
      * destruct (tokens_of (t !! k)); simpl; f_equal; lia.
      * intros _. by right; left.
      * intros _. apply Hs. by left.
    + rewrite H1 in Hu, Ht, Hc, Hs. rewrite Hu, Ht, Hc.
      repeat split; try done.
      * intros [?|?]%Hs; [by left|by right; right].
      * intros [?|[?|?]]; [apply Hs; by left|done|apply Hs; by right].
Qed.

Lemma increment_usage_metric_as_call fresh now d p s u tk c t :
  increment_usage_metric fresh now d p s u tk c t =
  apply_call (mk_increment_call fresh now d p s u tk c) t.
Proof. done. Qed.

(** When the call goes through: a fresh [id] for a new key, accumulators
    that stay within [integer] for a key that has a row. *)
Lemma increment_usage_metric_succeeds fresh now d p s u tk c t :
  match t !! (d, p, s) with
  | None => metric_id_taken fresh t = false
  | Some r =>
      int4 (usage_count r + u)
      ∧ (∀ x, tokens_used r = Some x → int4 (x + tk))
      ∧ int4 (estimated_cost_cents r + c)
  end →
  ∃ t', increment_usage_metric fresh now d p s u tk c t = Ok t'.
Proof.
  unfold increment_usage_metric.
  destruct (t !! (d, p, s)) as [r|].
  - intros (Hu & Ht & Hc). unfold accumulate, int4_add_null, int4_add.
    rewrite !bool_decide_eq_true_2 by done. simpl.
    destruct (tokens_used r) as [x|] eqn:Hx; simpl.
    + rewrite bool_decide_eq_true_2 by by apply Ht. simpl. eauto.
    + eauto.
  - intros ->. eauto.
Qed.

(** C5. [increment_usage_metric] is an upsert with accumulation.  For a key
    without a row it stores a row holding the given usage count, tokens and
    cost; for a key with a row it adds the given values to the stored ones
    (a NULL [tokens_used], which the function never writes, stays NULL); no
    other row changes.  Hence after any sequence of calls from the empty
    table, a key has a row exactly when a call was issued for it, and each
    accumulator of that row is the sum of the deltas issued for the key. *)
Theorem increment_usage_metric_upsert_accumulate :
  (∀ fresh now d p s u tk c (t t' : daily_usage_metrics),
     t !! (d, p, s) = None →
     increment_usage_metric fresh now d p s u tk c t = Ok t' →
     (∃ r', t' !! (d, p, s) = Some r'
        ∧ usage_count r' = u
        ∧ tokens_used r' = Some tk
        ∧ estimated_cost_cents r' = c)
     ∧ ∀ k, k ≠ (d, p, s) → t' !! k = t !! k)
  ∧ (∀ fresh now d p s u tk c (t t' : daily_usage_metrics) r,
     t !! (d, p, s) = Some r →
     increment_usage_metric fresh now d p s u tk c t = Ok t' →
     (∃ r', t' !! (d, p, s) = Some r'
        ∧ usage_count r' = usage_count r + u
        ∧ tokens_used r' = (fun x => x + tk) <$> tokens_used r
        ∧ estimated_cost_cents r' = estimated_cost_cents r + c)
     ∧ ∀ k, k ≠ (d, p, s) → t' !! k = t !! k)
  ∧ (∀ cs (t : daily_usage_metrics) k,
     apply_calls cs ∅ = Ok t →
     (is_Some (t !! k) ↔ Exists (fun c => call_key c = k) cs)
     ∧ ∀ r, t !! k = Some r →
         usage_count r = issued call_usage_count k cs
         ∧ tokens_used r = Some (issued call_tokens_used k cs)
         ∧ estimated_cost_cents r = issued call_cost_cents k cs).
Proof.
  split; [|split].
  - intros fresh now d p s u tk c t t' Hnone H.
    rewrite increment_usage_metric_as_call in H. split.
    + pose proof (apply_call_lookup _ _ _ (d, p, s) H) as Hk.
      rewrite decide_True in Hk by done.
      destruct Hk as (r' & Hr' & Hu & Ht & Hc). exists r'.
      rewrite Hnone in Hu, Ht, Hc. simpl in *.
      rewrite Hu, Ht, Hc. repeat split; try done; f_equal; lia.
    + intros k Hk. pose proof (apply_call_lookup _ _ _ k H) as Hk'.
      by rewrite decide_False in Hk' by done.
  - intros fresh now d p s u tk c t t' r Hsome H.
    rewrite increment_usage_metric_as_call in H. split.
    + pose proof (apply_call_lookup _ _ _ (d, p, s) H) as Hk.
      rewrite decide_True in Hk by done.
      destruct Hk as (r' & Hr' & Hu & Ht & Hc). exists r'.
      by rewrite Hsome in Hu, Ht, Hc.
    + intros k Hk. pose proof (apply_call_lookup _ _ _ k H) as Hk'.
      by rewrite decide_False in Hk' by done.
  - intros cs t k H.
    apply (apply_calls_lookup _ _ _ k) in H as (Hu & Ht & Hc & Hs).
    rewrite lookup_empty in Hu, Ht, Hc, Hs. simpl in Hu, Ht, Hc. split.
    + rewrite Hs. split; [intros [[? [=]]|?]; done|by right].
    + intros r Hr. rewrite Hr in Hu, Ht, Hc. simpl in Hu, Ht, Hc.
      rewrite Hu, Ht, Hc. done.
Qed.

Lemma increment_usage_metric_upsert_accumulate_witness :
  apply_calls calls_sample ∅ = Ok metrics_after_sample
  ∧ ∃ r, metrics_after_sample !! openai_chat = Some r
      ∧ usage_count r = 3
      ∧ tokens_used r = Some 350
      ∧ estimated_cost_cents r = 10.
Proof.
  assert (H : apply_calls calls_sample ∅ = Ok metrics_after_sample)
    by reflexivity.
  split; [exact H|].
  destruct increment_usage_metric_upsert_accumulate as (_ & _ & Hsum).
  destruct (Hsum calls_sample metrics_after_sample openai_chat H) as [_ Hrow].
  eexists. split; [vm_compute; reflexivity|].
  apply (Hrow _ ltac:(vm_compute; reflexivity)).
Defined.

(** C9, as amended.  A call whose deltas are not negative never lowers an
    accumulator: the row of its key holds, for each of usage count, tokens
    and cost, at least what it held before, and a new row holds the deltas
    themselves; rows of other keys are unchanged. *)
Theorem increment_usage_metric_monotone (fresh : uuid) (now : timestamptz)
    (d : Z) (p s : string) (u tk c : Z) (t t' : daily_usage_metrics) :
  0 ≤ u → 0 ≤ tk → 0 ≤ c →
  increment_usage_metric fresh now d p s u tk c t = Ok t' →
  (∃ r', t' !! (d, p, s) = Some r'
     ∧ count_of (t !! (d, p, s)) ≤ usage_count r'
     ∧ (∀ x, tokens_of (t !! (d, p, s)) = Some x →
          ∃ y, tokens_used r' = Some y ∧ x ≤ y)
     ∧ cost_of (t !! (d, p, s)) ≤ estimated_cost_cents r')
  ∧ ∀ k, k ≠ (d, p, s) → t' !! k = t !! k.
Proof.
  intros Hu Htk Hc H. rewrite increment_usage_metric_as_call in H. split.
  - pose proof (apply_call_lookup _ _ _ (d, p, s) H) as Hk.
    rewrite decide_True in Hk by done. simpl in Hk.
    destruct Hk as (r' & Hr' & Hu' & Ht' & Hc'). exists r'.
    split; [done|]. split; [lia|]. split; [|lia].
    intros x Hx. rewrite Hx in Ht'. simpl in Ht'.
    eexists. split; [done|lia].
  - intros k Hk. pose proof (apply_call_lookup _ _ _ k H) as Hk'.
    by rewrite decide_False in Hk' by done.
Qed.

Lemma increment_usage_metric_monotone_witness :
  increment_usage_metric 2%N 2000 9436 "openai" "chat" 1 100 5 metrics_sample
    = Ok metrics_sample_after
  ∧ ∃ r', metrics_sample_after !! openai_chat = Some r' ∧ 5 ≤ usage_count r'.
Proof.
  assert (H : increment_usage_metric 2%N 2000 9436 "openai" "chat" 1 100 5
                metrics_sample = Ok metrics_sample_after)
    by reflexivity.
  split; [exact H|].
  destruct (increment_usage_metric_monotone 2%N 2000 9436 "openai" "chat"
              1 100 5 metrics_sample metrics_sample_after
              ltac:(lia) ltac:(lia) ltac:(lia) H)
    as [(r' & Hr' & Hu & _) _].
  exists r'. split; [exact Hr'|exact Hu].
Defined.

(** C9, as stated, fails: the deltas are signed integers, and a call with
    negative deltas lowers the three accumulators of an existing row. *)
Lemma increment_usage_metric_can_decrease :
  metrics_sample !! openai_chat = Some five_calls_row
  ∧ increment_usage_metric 2%N 2000 9436 "openai" "chat" (-1) (-100) (-5)
      metrics_sample = Ok {[ openai_chat := refund_row ]}
  ∧ usage_count refund_row < usage_count five_calls_row
  ∧ tokens_used five_calls_row = Some 1200
  ∧ tokens_used refund_row = Some 1100
  ∧ estimated_cost_cents refund_row < estimated_cost_cents five_calls_row.
Proof.
  split; [reflexivity|]. split; [reflexivity|]. by vm_compute.
Qed.

(** ** JobQueue: the order of [get_next_job] *)

Lemma sorts_before_spec a b :
  sorts_before a b = true ↔
  priority b < priority a
  ∨ (priority a = priority b ∧ scheduled_at a < scheduled_at b).
Proof.
  unfold sorts_before.
  rewrite orb_true_iff, andb_true_iff, !Z.ltb_lt, Z.eqb_eq. done.
Qed.

Lemma sorts_before_false a b :
  sorts_before a b = false ↔
  priority a ≤ priority b
  ∧ (priority a = priority b → scheduled_at b ≤ scheduled_at a).
Proof.
  rewrite <-not_true_iff_false, sorts_before_spec. lia.
Qed.

Lemma eligible_spec now j :
  eligible now j = true ↔ status j = pending ∧ scheduled_at j ≤ now.
Proof.
  unfold eligible. rewrite andb_true_iff, bool_decide_eq_true, Z.leb_le. done.
Qed.

Lemma first_row_from rows : ∀ b0,
  ∃ b, foldl keep_first (Some b0) rows = Some b
    ∧ (b = b0 ∨ b ∈ rows)
    ∧ sorts_before b0.2 b.2 = false
    ∧ ∀ r, r ∈ rows → sorts_before r.2 b.2 = false.
Proof.
  induction rows as [|r rows IH]; intros b0; simpl.
  - exists b0. split; [done|]. split; [by left|]. split.
    + apply sorts_before_false. lia.
    + intros r Hr. by apply elem_of_nil in Hr.
  - destruct (sorts_before r.2 b0.2) eqn:Hlt.
    + destruct (IH r) as (b & Hb & Hin & Hr & Hall). exists b.
      split; [done|]. split.
      { right. destruct Hin as [->|Hin]; [left|right]; done. }
      apply sorts_before_spec in Hlt. apply sorts_before_false in Hr.
      split; [apply sorts_before_false; lia|].
      intros r' [->|Hr']%elem_of_cons; [apply sorts_before_false; lia|auto].
    + destruct (IH b0) as (b & Hb & Hin & Hb0 & Hall). exists b.
      split; [done|]. split.
      { destruct Hin as [->|Hin]; [by left|right; by right]. }
      split; [done|].
      intros r' [->|Hr']%elem_of_cons; [|auto].
      apply sorts_before_false in Hlt, Hb0. apply sorts_before_false. lia.
Qed.

Lemma first_row_Some rows b :
  first_row rows = Some b →
  b ∈ rows ∧ ∀ r, r ∈ rows → sorts_before r.2 b.2 = false.
Proof.
  unfold first_row. destruct rows as [|r rows]; [done|].
  simpl. intros H. destruct (first_row_from rows r) as (b' & Hb' & Hin & Hr & Hall).
  rewrite Hb' in H. injection H as ->. split.
  - destruct Hin as [->|Hin]; [left|right]; done.
  - intros r' [->|Hr']%elem_of_cons; auto.
Qed.

Lemma first_row_None rows : first_row rows = None ↔ rows = [].
Proof.
  unfold first_row. destruct rows as [|r rows]; [done|].
  simpl. destruct (first_row_from rows r) as (b' & Hb' & _).
  rewrite Hb'. done.
Qed.

Lemma next_candidate_Some now (q : job_queue) i j :
  next_candidate now q = Some (i, j) →
  q !! i = Some j
  ∧ eligible now j = true
  ∧ ∀ i' j', q !! i' = Some j' → eligible now j' = true →
      sorts_before j' j = false.
Proof.
  unfold next_candidate. intros [Hin Hbest]%first_row_Some.
  apply list_elem_of_filter in Hin as [Hel Hin].
  apply elem_of_map_to_list in Hin. repeat split; [done..|].
  intros i' j' Hq Hel'. apply (Hbest (i', j')).
  apply list_elem_of_filter. split; [done|]. by apply elem_of_map_to_list.
Qed.

Lemma next_candidate_None now (q : job_queue) :
  next_candidate now q = None ↔
  ∀ i j, q !! i = Some j → eligible now j = false.
Proof.
  unfold next_candidate. rewrite first_row_None. split.
  - intros Hnil i j Hq. apply not_true_iff_false. intros Hel.
    assert (Hin : (i, j) ∈ filter (fun r : job_row => eligible now r.2 = true)
                     (map_to_list q)).
    { apply list_elem_of_filter. split; [done|]. by apply elem_of_map_to_list. }
    rewrite Hnil in Hin. by apply elem_of_nil in Hin.
  - intros Hall. apply elem_of_nil_inv. intros [i j] Hin.
    apply list_elem_of_filter in Hin as [Hel Hin].
    apply elem_of_map_to_list in Hin. simpl in Hel.
    rewrite (Hall _ _ Hin) in Hel. done.
Qed.

(** ** JobQueue: [get_next_job] *)

(** C4. [get_next_job] takes, among the rows with status [pending] and
    [scheduled_at <= now], one of highest priority and, among those, of
    earliest [scheduled_at]; it sets that row, and no other, to
    [processing] with [started_at = now] and returns the row as updated.
    It returns no row exactly when no pending row is due, and then leaves
    the table as it is; neither outcome is an error. *)
Theorem get_next_job_claims_first now (q : job_queue) :
  match get_next_job now q with
  | (q', Some (i, j')) =>
      ∃ j, q !! i = Some j
        ∧ status j = pending ∧ scheduled_at j ≤ now
        ∧ (∀ i2 j2, q !! i2 = Some j2 →
             status j2 = pending → scheduled_at j2 ≤ now →
             priority j2 ≤ priority j
             ∧ (priority j2 = priority j → scheduled_at j ≤ scheduled_at j2))
        ∧ j' = mk_job (job_type j) (payload j) processing (priority j)
                 (scheduled_at j) (Some now) (completed_at j)
                 (error_message j) (retry_count j) (max_retries j)
                 (created_at j) now
        ∧ q' = <[i := j']> q
  | (q', None) =>
      q' = q
      ∧ ∀ i j, q !! i = Some j → ¬ (status j = pending ∧ scheduled_at j ≤ now)
  end.
Proof.
  unfold get_next_job.
  destruct (next_candidate now q) as [[i j]|] eqn:Hc.
  - apply next_candidate_Some in Hc as (Hq & [Hst Hdue]%eligible_spec & Hbest).
    exists j. repeat split; try done.
    + eapply sorts_before_false, Hbest; [done|]. by apply eligible_spec.
    + intros Heq. assert (Hsb : sorts_before j2 j = false).
      { eapply Hbest; [done|]. by apply eligible_spec. }
      apply sorts_before_false in Hsb. lia.
  - split; [done|]. intros i j Hq Hel%eligible_spec.
    rewrite next_candidate_None in Hc. by rewrite (Hc _ _ Hq) in Hel.
Qed.

(** Priority first, then age: job 3 is taken before job 2 (same priority,
    scheduled later), job 1 (lower priority) and job 4 (not yet due). *)
Example get_next_job_sample :
  get_next_job 10 queue_sample =
  (<[3%N := claim 10 (job_sample pending 10 3 None 0 3)]> queue_sample,
   Some (3%N, claim 10 (job_sample pending 10 3 None 0 3))).
Proof. by vm_compute. Qed.

Example get_next_job_nothing_due :
  get_next_job (-1) queue_sample = (queue_sample, None).
Proof. by vm_compute. Qed.

(** ** JobQueue: [cleanup_old_jobs] *)

Lemma purgeable_spec cutoff j :
  purgeable cutoff j = true ↔
  (status j = completed ∨ status j = failed)
  ∧ ∃ t, completed_at j = Some t ∧ t < cutoff.
Proof.
  unfold purgeable.
  rewrite andb_true_iff, orb_true_iff, !bool_decide_eq_true.
  destruct (completed_at j) as [t|].
  - rewrite Z.ltb_lt. split.
    + intros [? ?]. eauto.
    + intros [? (t' & [= <-] & ?)]. done.
  - split; [by intros [_ ?]|by intros [_ (? & ? & _)]].
Qed.

Lemma cleanup_old_jobs_Ok now d (q q' : job_queue) n :
  cleanup_old_jobs now d q = Ok (q', n) →
  valid_timestamp (now - d * USECS_PER_DAY)
  ∧ q' = filter (fun r : job_row =>
                   purgeable (now - d * USECS_PER_DAY) r.2 = false) q
  ∧ n = Z.of_nat (size q) - Z.of_nat (size q').
Proof.
  unfold cleanup_old_jobs, days_before. intros H.
  apply bind_Ok in H as (cutoff & [-> Hv]%check_timestamp_Ok & H).
  case_bool_decide; [|done]. by injection H as <- <-.
Qed.

(** The reaper goes through when the cutoff is a timestamp and the row
    count fits an [integer]. *)
Lemma cleanup_old_jobs_succeeds now d (q : job_queue) :
  valid_timestamp (now - d * USECS_PER_DAY) →
  Z.of_nat (size q) ≤ int4_max →
  ∃ q' n, cleanup_old_jobs now d q = Ok (q', n).
Proof.
  intros Hv Hsize. unfold cleanup_old_jobs, days_before, check_timestamp.
  rewrite bool_decide_eq_true_2 by done. simpl.
  rewrite bool_decide_eq_true_2; [eauto|].
  pose proof (map_subseteq_size _ _
    (map_filter_subseteq (fun r : job_row =>
       purgeable (now - d * USECS_PER_DAY) r.2 = false) q)) as Hle.
  unfold int4, int4_min, int4_max in *. lia.
Qed.

(** C7. [cleanup_old_jobs] with a retention of [d] days deletes exactly the
    rows whose status is [completed] or [failed] and whose [completed_at] is
    set and older than [d] days; every other row stays as it is, in
    particular every [pending] or [processing] row whatever its age; the
    function returns the number of rows it deleted. *)
Theorem cleanup_old_jobs_deletes_old_terminal now d (q q' : job_queue) n :
  cleanup_old_jobs now d q = Ok (q', n) →
  (∀ i j, q !! i = Some j →
     (status j = completed ∨ status j = failed) →
     (∃ t, completed_at j = Some t ∧ t < now - d * USECS_PER_DAY) →
     q' !! i = None)
  ∧ (∀ i j, q !! i = Some j →
       ¬ ((status j = completed ∨ status j = failed)
          ∧ ∃ t, completed_at j = Some t ∧ t < now - d * USECS_PER_DAY) →
       q' !! i = Some j)
  ∧ (∀ i, q !! i = None → q' !! i = None)
  ∧ (∀ i j, q !! i = Some j →
       status j = pending ∨ status j = processing → q' !! i = Some j)
  ∧ n = Z.of_nat (size q) - Z.of_nat (size q').
Proof.
  intros (_ & -> & ->)%cleanup_old_jobs_Ok.
  assert (Hkeep : ∀ i j, q !! i = Some j →
     ¬ ((status j = completed ∨ status j = failed)
        ∧ ∃ t, completed_at j = Some t ∧ t < now - d * USECS_PER_DAY) →
     filter (fun r : job_row =>
       purgeable (now - d * USECS_PER_DAY) r.2 = false) q !! i = Some j).
  { intros i j Hq Hold. apply map_lookup_filter_Some. split; [done|]. simpl.
    apply not_true_iff_false. by rewrite purgeable_spec. }
  split; [|split; [exact Hkeep|split; [|split; [|done]]]].
  - intros i j Hq Hst Hold. apply map_lookup_filter_None. right.
    intros j' Hq'. rewrite Hq in Hq'. injection Hq' as <-. simpl.
    assert (Hp : purgeable (now - d * USECS_PER_DAY) j = true)
      by by apply purgeable_spec.
    by rewrite Hp.
  - intros i Hq. apply map_lookup_filter_None. by left.
  - intros i j Hq Hst. apply Hkeep; [done|].
    intros [[?|?] _]; destruct Hst; congruence.
Qed.

Lemma cleanup_old_jobs_deletes_old_terminal_witness :
  cleanup_old_jobs one_year 7 aged_sample =
    Ok (delete 3%N aged_sample, 1)
  ∧ delete 3%N aged_sample !! 1%N = Some (job_sample pending 5 0 None 0 3)
  ∧ delete 3%N aged_sample !! 2%N = Some (job_sample processing 5 0 None 0 3).
Proof.
  assert (H : cleanup_old_jobs one_year 7 aged_sample =
                Ok (delete 3%N aged_sample, 1)) by (vm_compute; reflexivity).
  split; [exact H|].
  destruct (cleanup_old_jobs_deletes_old_terminal _ _ _ _ _ H)
    as (_ & _ & _ & Hkeep & _).
  split; apply Hkeep; first [by left|by right|vm_compute; reflexivity].
Defined.

(** ** JobQueue: [complete_job] *)

Lemma power2_minutes_Ok n d :
  0 ≤ n → power2_minutes n = Ok d → d = 2 ^ n * USECS_PER_MINUTE ∧ 0 < d.
Proof.
  unfold power2_minutes. intros Hn H.
  destruct (1024 <=? n); [done|].
  destruct (n <? -1074); [done|].
  destruct (0 <=? n) eqn:H0; [|apply Z.leb_gt in H0; lia].
  destruct (_ <=? int8_max); [|done]. injection H as <-.
  split; [done|]. pose proof (Z.pow_pos_nonneg 2 n).
  unfold USECS_PER_MINUTE. lia.
Qed.

(** The row that the failure branch writes. *)
Lemma mark_failed_Ok now e j j' :
  mark_failed now e j = Ok j' →
  retry_count j' = retry_count j + 1
  ∧ status j' = (if retry_count j <? max_retries j then pending else failed)
  ∧ (retry_count j < max_retries j →
       ∃ d, power2_minutes (retry_count j) = Ok d
         ∧ scheduled_at j' = now + d)
  ∧ (max_retries j ≤ retry_count j → scheduled_at j' = scheduled_at j)
  ∧ started_at j' = None
  ∧ completed_at j' = completed_at j
  ∧ error_message j' = e
  ∧ max_retries j' = max_retries j
  ∧ priority j' = priority j
  ∧ job_type j' = job_type j
  ∧ payload j' = payload j
  ∧ created_at j' = created_at j
  ∧ updated_at j' = now.
Proof.
  unfold mark_failed. intros H.
  apply bind_Ok in H as (rc & [-> _]%int4_add_Ok & H).
  apply bind_Ok in H as (sched & Hs & H). injection H as <-. simpl.
  rewrite Z.geb_leb.
  destruct (retry_count j <? max_retries j) eqn:Hlt.
  - apply Z.ltb_lt in Hlt.
    apply bind_Ok in Hs as (d & Hd & [-> _]%check_timestamp_Ok).
    rewrite (proj2 (Z.leb_gt _ _)) by lia.
    repeat split; try done; [eauto|lia].
  - apply Z.ltb_ge in Hlt. injection Hs as <-.
    rewrite (proj2 (Z.leb_le _ _)) by lia.
    repeat split; try done. lia.
Qed.

(** The delay of a retry: 2^n minutes for the count n found in the row. *)
Lemma mark_failed_backoff now e j j' :
  mark_failed now e j = Ok j' →
  0 ≤ retry_count j →
  retry_count j < max_retries j →
  scheduled_at j' = now + 2 ^ retry_count j * USECS_PER_MINUTE
  ∧ now < scheduled_at j'.
Proof.
  intros (_ & _ & Hlt & _)%mark_failed_Ok Hrc0 Hbelow.
  destruct (Hlt Hbelow) as (d & Hd & ->).
  apply power2_minutes_Ok in Hd as [-> Hpos]; [|done]. lia.
Qed.

(** The failure branch goes through for a job as the queue makes them:
    a small non-negative [retry_count] and a clock of this era. *)
Lemma mark_failed_succeeds now e j :
  0 ≤ retry_count j ≤ 32 →
  0 ≤ now ≤ 2 ^ 62 →
  ∃ j', mark_failed now e j = Ok j'.
Proof.
  intros Hrc Hnow. unfold mark_failed, int4_add.
  rewrite bool_decide_eq_true_2
    by (unfold int4, int4_min, int4_max; lia). simpl.
  destruct (retry_count j <? max_retries j); [|eauto].
  assert (Hp : 0 < 2 ^ retry_count j ≤ 2 ^ 32).
  { split; [apply Z.pow_pos_nonneg; lia|apply Z.pow_le_mono_r; lia]. }
  unfold power2_minutes.
  rewrite (proj2 (Z.leb_gt _ _)) by lia.
  rewrite (proj2 (Z.ltb_ge _ _)) by lia.
  rewrite (proj2 (Z.leb_le _ _)) by lia.
  change (2 ^ 32) with 4294967296 in Hp.
  change (2 ^ 62) with 4611686018427387904 in Hnow.
  rewrite (proj2 (Z.leb_le _ _))
    by (unfold USECS_PER_MINUTE, int8_max; lia).
  simpl. unfold check_timestamp.
  rewrite bool_decide_eq_true_2; [eauto|].
  unfold valid_timestamp, MIN_TIMESTAMP, END_TIMESTAMP, USECS_PER_MINUTE. lia.
Qed.

(** Exactly when the failure branch goes through. *)
Lemma mark_failed_Ok_iff now e j :
  (∃ j', mark_failed now e j = Ok j')
  ↔ int4 (retry_count j + 1)
    ∧ (retry_count j < max_retries j →
         ∃ d, power2_minutes (retry_count j) = Ok d
           ∧ valid_timestamp (now + d)).
Proof.
  unfold mark_failed. split.
  - intros [j' H].
    apply bind_Ok in H as (rc & [-> Hrc]%int4_add_Ok & H).
    apply bind_Ok in H as (sched & Hs & _). split; [done|].
    intros Hlt. rewrite (proj2 (Z.ltb_lt _ _)) in Hs by done.
    apply bind_Ok in Hs as (d & Hd & [_ Hv]%check_timestamp_Ok). eauto.
  - intros [Hrc Hsched]. unfold int4_add.
    rewrite bool_decide_eq_true_2 by done. simpl.
    destruct (retry_count j <? max_retries j) eqn:E; [|simpl; eauto].
    apply Z.ltb_lt in E. destruct (Hsched E) as (d & -> & Hv). simpl.
    unfold check_timestamp. rewrite bool_decide_eq_true_2 by done.
    simpl. eauto.
Qed.

(** What the failure branch can raise: range errors, nothing else. *)
Lemma mark_failed_Err now e j err :
  mark_failed now e j = Err err →
  err = numeric_value_out_of_range ∨ err = datetime_value_out_of_range.
Proof.
  unfold mark_failed, int4_add.
  case_bool_decide; simpl; [|intros [= <-]; by left].
  destruct (retry_count j <? max_retries j); simpl; [|done].
  unfold power2_minutes.
  destruct (1024 <=? retry_count j); simpl; [intros [= <-]; by left|].
  destruct (retry_count j <? -1074); simpl; [intros [= <-]; by left|].
  destruct (0 <=? retry_count j).
  - destruct (_ <=? int8_max); simpl; [|intros [= <-]; by right].
    unfold check_timestamp. case_bool_decide; simpl; [done|].
    intros [= <-]. by right.
  - simpl. unfold check_timestamp. case_bool_decide; simpl; [done|].
    intros [= <-]. by right.
Qed.

Lemma complete_job_row now i s e (q q' : job_queue) j :
  q !! i = Some j →
  complete_job now i s e q = Ok q' →
  ∃ j', q' = <[i := j']> q
    ∧ if s then j' = mark_completed now j else mark_failed now e j = Ok j'.
Proof.
  unfold complete_job. intros -> H. destruct s.
  - injection H as <-. eauto.
  - apply bind_Ok in H as (j' & Hj' & [= <-]). eauto.
Qed.

Lemma complete_job_missing now i s e (q : job_queue) :
  q !! i = None → complete_job now i s e q = Ok q.
Proof. unfold complete_job. by intros ->. Qed.

(** ** JobQueue: histories *)

(** Where a row of the table after a call comes from. *)
Lemma exec_row now o (q q' : job_queue) r i j' :
  exec now o q = Ok (q', r) →
  q' !! i = Some j' →
  q !! i = Some j'
  ∨ (q !! i = None
     ∧ ∃ ty pl pr sch, o = Enqueue i ty pl pr sch
                       ∧ j' = new_job now ty pl pr sch)
  ∨ (∃ j, q !! i = Some j ∧ o = ClaimNext
          ∧ eligible now j = true ∧ j' = claim now j)
  ∨ (∃ j s e, q !! i = Some j ∧ o = Complete i s e
              ∧ if s then j' = mark_completed now j
                else mark_failed now e j = Ok j').
Proof.
  destruct o as [fresh ty pl pr sch| |i0 s e|d]; simpl; intros H Hq'.
  - apply bind_Ok in H as ([q1 i1] & H1 & [= <- <-]).
    unfold enqueue_job in H1.
    destruct (q !! fresh) eqn:Hf; [done|]. injection H1 as <- <-.
    destruct (decide (fresh = i)) as [->|Hne].
    + rewrite lookup_insert_eq in Hq'. injection Hq' as <-.
      right; left. eauto 10.
    + rewrite lookup_insert_ne in Hq' by done. by left.
  - unfold get_next_job in H.
    destruct (next_candidate now q) as [[i1 j1]|] eqn:Hc.
    + injection H as <- <-.
      apply next_candidate_Some in Hc as (Hq1 & Hel & _).
      destruct (decide (i1 = i)) as [->|Hne].
      * rewrite lookup_insert_eq in Hq'. injection Hq' as <-.
        right; right; left. eauto.
      * rewrite lookup_insert_ne in Hq' by done. by left.
    + injection H as <- <-. by left.
  - apply bind_Ok in H as (q1 & H1 & [= <- <-]).
    destruct (q !! i0) as [j0|] eqn:Hq0.
    + apply (complete_job_row _ _ _ _ _ _ _ Hq0) in H1 as (j1 & -> & Hj1).
      destruct (decide (i0 = i)) as [->|Hne].
      * rewrite lookup_insert_eq in Hq'. injection Hq' as <-.
        right; right; right. eauto 10.
      * rewrite lookup_insert_ne in Hq' by done. by left.
    + rewrite complete_job_missing in H1 by done. injection H1 as <-.
      by left.
  - apply bind_Ok in H as ([q1 n] & H1 & [= <- <-]).
    apply cleanup_old_jobs_Ok in H1 as (_ & -> & _).
    apply map_lookup_filter_Some in Hq' as [Hq' _]. by left.
Qed.

(** A call returns job [i] only if [i] was pending and due. *)
Lemma exec_claims now o (q q' : job_queue) r i :
  exec now o q = Ok (q', r) →
  claims i r = true →
  ∃ j, q !! i = Some j ∧ eligible now j = true.
Proof.
  destruct o as [fresh ty pl pr sch| |i0 s e|d]; simpl; intros H Hc.
  - apply bind_Ok in H as ([q1 i1] & _ & [= <- <-]). done.
  - unfold get_next_job in H.
    destruct (next_candidate now q) as [[i1 j1]|] eqn:Hn.
    + injection H as <- <-. simpl in Hc. apply bool_decide_eq_true in Hc as ->.
      apply next_candidate_Some in Hn as (Hq1 & Hel & _). eauto.
    + injection H as <- <-. done.
  - apply bind_Ok in H as (q1 & _ & [= <- <-]). done.
  - apply bind_Ok in H as ([q1 n] & _ & [= <- <-]). done.
Qed.

(** A property of the table kept by every call is kept by a history. *)
Lemma run_invariant (strict : bool) (P : job_queue → Prop) :
  (∀ now o q q' r,
     P q → (strict = true → follows_protocol o q = true) →
     exec now o q = Ok (q', r) → P q') →
  ∀ h q q' rs,
    P q → (strict = true → obeys h q = true) →
    run h q = Ok (q', rs) → P q'.
Proof.
  intros Hstep h. induction h as [|[now o] h IH]; intros q q' rs HP Hob H.
  - simpl in H. by injection H as <- <-.
  - simpl in H, Hob.
    apply bind_Ok in H as ([q1 r] & H1 & H).
    apply bind_Ok in H as ([q2 rs2] & H2 & [= <- <-]).
    rewrite H1 in Hob. apply (IH q1 q2 rs2); [|by intros [_ ?]%Hob%andb_true_iff|done].
    apply (Hstep now o q q1 r); [done| |done].
    by intros [? _]%Hob%andb_true_iff.
Qed.

Example history_four_failures_runs :
  ∃ rs, run history_four_failures ∅ = Ok ({[ 8%N := worn_out_job ]}, rs)
        ∧ obeys history_four_failures ∅ = true.
Proof. eexists. split; by vm_compute. Qed.

(** A job handed out by [get_next_job] and reported as failed no earlier
    is scheduled strictly later than it was. *)
Lemma claimed_job_retry_later now1 now2 e (q q1 q2 : job_queue) i j1 :
  get_next_job now1 q = (q1, Some (i, j1)) →
  now1 ≤ now2 →
  0 ≤ retry_count j1 < max_retries j1 →
  complete_job now2 i false e q1 = Ok q2 →
  ∃ j2, q2 !! i = Some j2
    ∧ status j2 = pending
    ∧ scheduled_at j1 < scheduled_at j2.
Proof.
  unfold get_next_job. intros Hclaim Hclock [Hrc0 Hbelow] H.
  destruct (next_candidate now1 q) as [[i0 j0]|] eqn:Hc; [|done].
  injection Hclaim as <- <- <-.
  apply next_candidate_Some in Hc as (_ & [_ Hdue]%eligible_spec & _).
  assert (Hq1 : <[i0 := claim now1 j0]> q !! i0 = Some (claim now1 j0))
    by apply lookup_insert_eq.
  destruct (complete_job_row _ _ _ _ _ _ _ Hq1 H) as (j2 & -> & Hj2).
  exists j2. rewrite lookup_insert_eq. split; [done|].
  destruct (mark_failed_backoff _ _ _ _ Hj2 Hrc0 Hbelow) as [_ Hlater].
  apply mark_failed_Ok in Hj2 as (_ & Hs & _).
  rewrite (proj2 (Z.ltb_lt _ _)) in Hs by done.
  split; [done|]. simpl in *. lia.
Qed.

(** A retired job stays retired, and is never handed out, as long as its
    [id] is not drawn again for a new job. *)
Lemma exec_retired now o (q q' : job_queue) r i :
  retired i q → enqueues i o = false →
  exec now o q = Ok (q', r) →
  retired i q' ∧ claims i r = false.
Proof.
  intros Hret Hne H. split.
  - intros j' Hq'.
    destruct (exec_row _ _ _ _ _ _ _ H Hq')
      as [Hq|[(_ & ty & pl & pr & sch & -> & _)|
              [(j & Hq & _ & [Hst _]%eligible_spec & _)|
               (j & s & e & Hq & _ & Hj')]]].
    + by apply Hret.
    + simpl in Hne. by rewrite bool_decide_eq_true_2 in Hne.
    + by destruct (Hret _ Hq).
    + destruct (Hret _ Hq) as [Hst Hmax]. destruct s.
      * subst j'. done.
      * apply mark_failed_Ok in Hj' as (Hrc & Hs & _ & _ & _ & _ & _ & Hmr & _).
        rewrite (proj2 (Z.ltb_ge _ _)) in Hs by lia.
        rewrite Hs, Hrc, Hmr. split; [done|lia].
  - apply not_true_iff_false. intros Hc.
    destruct (exec_claims _ _ _ _ _ _ H Hc) as (j & Hq & [Hst _]%eligible_spec).
    by destruct (Hret _ Hq).
Qed.

Lemma run_retired h : ∀ (q q' : job_queue) rs i,
  retired i q →
  Forall (fun c : timestamptz * op => enqueues i c.2 = false) h →
  run h q = Ok (q', rs) →
  retired i q' ∧ Forall (fun r => claims i r = false) rs.
Proof.
  induction h as [|[now o] h IH]; intros q q' rs i Hret Hh H; simpl in H.
  - injection H as <- <-. done.
  - apply bind_Ok in H as ([q1 r] & H1 & H).
    apply bind_Ok in H as ([q2 rs2] & H2 & [= <- <-]).
    apply Forall_cons in Hh as [Ho Hh]. simpl in Ho.
    destruct (exec_retired _ _ _ _ _ _ Hret Ho H1) as [Hret1 Hr].
    destruct (IH _ _ _ _ Hret1 Hh H2) as [Hret2 Hrs].
    split; [done|]. by constructor.
Qed.

(** C1, as amended.  On a [processing] job, [complete_job] with
    [success = false] adds one to [retry_count] and compares the count it
    found, not the incremented one, with [max_retries]: the job goes back to
    [pending] when that count is below [max_retries] and to [failed]
    otherwise.  With [max_retries = 1] the first failure therefore leaves the
    job [pending] with [retry_count = 1] and the second makes it [failed]
    with [retry_count = 2].  A job that has become [failed] is not claimed
    again and never returns to [pending], whatever calls follow, unless its
    [id] is drawn anew by [enqueue_job] after a deletion. *)
Theorem complete_job_failure_transition now i e (q q' : job_queue) j :
  q !! i = Some j →
  status j = processing →
  complete_job now i false e q = Ok q' →
  ∃ j', q' !! i = Some j'
    ∧ retry_count j' = retry_count j + 1
    ∧ (retry_count j < max_retries j → status j' = pending)
    ∧ (max_retries j ≤ retry_count j → status j' = failed)
    ∧ (max_retries j = 1 →
         (retry_count j = 0 → status j' = pending ∧ retry_count j' = 1)
         ∧ (retry_count j = 1 → status j' = failed ∧ retry_count j' = 2))
    ∧ (status j' = failed →
         ∀ h (q'' : job_queue) rs,
           Forall (fun c : timestamptz * op => enqueues i c.2 = false) h →
           run h q' = Ok (q'', rs) →
           Forall (fun r => claims i r = false) rs
           ∧ ∀ j'', q'' !! i = Some j'' → status j'' ≠ pending).
Proof.
  intros Hq Hst H.
  destruct (complete_job_row _ _ _ _ _ _ _ Hq H) as (j' & -> & Hj').
  exists j'. rewrite lookup_insert_eq. split; [done|].
  apply mark_failed_Ok in Hj' as (Hrc & Hs & _ & _ & _ & _ & _ & Hmr & _).
  assert (Hlt : retry_count j < max_retries j → status j' = pending).
  { intros Hlt. by rewrite (proj2 (Z.ltb_lt _ _)) in Hs by lia. }
  assert (Hge : max_retries j ≤ retry_count j → status j' = failed).
  { intros Hge. by rewrite (proj2 (Z.ltb_ge _ _)) in Hs by lia. }
  split; [done|]. split; [done|]. split; [done|]. split.
  - intros H1. split; intros H0.
    + split; [apply Hlt|]; lia.
    + split; [apply Hge|]; lia.
  - intros Hfailed h q'' rs Hh Hrun.
    assert (Hret : retired i (<[i := j']> q)).
    { intros j0. rewrite lookup_insert_eq. intros [= <-].
      split; [by rewrite Hfailed|].
      destruct (retry_count j <? max_retries j) eqn:E.
      - by rewrite Hs in Hfailed.
      - apply Z.ltb_ge in E. lia. }
    destruct (run_retired _ _ _ _ _ Hret Hh Hrun) as [Hret' Hrs].
    split; [done|]. intros j'' Hq''. by destruct (Hret' _ Hq'').
Qed.

Lemma complete_job_failure_transition_witness :
  complete_job 60000015 7%N false (Some "timeout") lone_queue_reclaimed
    = Ok lone_queue_failed_twice
  ∧ ∃ j', lone_queue_failed_twice !! 7%N = Some j'
      ∧ retry_count j' = 2
      ∧ status j' = failed.
Proof.
  assert (H : complete_job 60000015 7%N false (Some "timeout")
                lone_queue_reclaimed = Ok lone_queue_failed_twice)
    by (vm_compute; reflexivity).
  assert (Hq : lone_queue_reclaimed !! 7%N = Some lone_job_reclaimed)
    by (vm_compute; reflexivity).
  assert (Hst : status lone_job_reclaimed = processing) by reflexivity.
  split; [exact H|].
  destruct (complete_job_failure_transition _ _ _ _ _ _ Hq Hst H)
    as (j' & Hj' & Hrc & _ & Hge & _).
  exists j'. split; [exact Hj'|]. split.
  - exact Hrc.
  - apply Hge. vm_compute. discriminate.
Defined.

(** C1, as stated, fails: with [max_retries = 1] the first failure brings
    [retry_count] to 1, which is not below [max_retries], and yet the job is
    [pending] again, not [failed]; it is claimed anew once its backoff has
    passed, and is [failed] only after the second failure, with
    [retry_count = 2]. *)
Lemma complete_job_retries_at_limit :
  status lone_job = processing
  ∧ retry_count lone_job = 0
  ∧ max_retries lone_job = 1
  ∧ complete_job 10 7%N false (Some "timeout") lone_queue
      = Ok {[ 7%N := lone_job_failed_once ]}
  ∧ retry_count lone_job_failed_once = 1
  ∧ status lone_job_failed_once = pending
  ∧ get_next_job 60000010 {[ 7%N := lone_job_failed_once ]}
      = (lone_queue_reclaimed, Some (7%N, lone_job_reclaimed))
  ∧ complete_job 60000015 7%N false (Some "timeout") lone_queue_reclaimed
      = Ok lone_queue_failed_twice
  ∧ status lone_job_failed_twice = failed
  ∧ retry_count lone_job_failed_twice = 2.
Proof. repeat split; by vm_compute. Qed.

(** C2, as amended.  When [complete_job] with [success = false] re-queues a
    [processing] job, the new [scheduled_at] is [now] plus 2^n minutes where
    n is the [retry_count] found, before the increment: one minute after the
    first failure, two after the second.  The new [scheduled_at] is strictly
    later than the previous one whenever the failure is reported at or after
    the previous one, as it is for a job that [get_next_job] handed out.
    Once the count found has reached [max_retries] the job is [failed] and
    its [scheduled_at] stays. *)
Theorem complete_job_backoff now i e (q q' : job_queue) j :
  q !! i = Some j →
  status j = processing →
  0 ≤ retry_count j →
  complete_job now i false e q = Ok q' →
  ∃ j', q' !! i = Some j'
    ∧ retry_count j' = retry_count j + 1
    ∧ (retry_count j < max_retries j →
         status j' = pending
         ∧ scheduled_at j' = now + 2 ^ retry_count j * USECS_PER_MINUTE
         ∧ (scheduled_at j ≤ now → scheduled_at j < scheduled_at j'))
    ∧ (max_retries j ≤ retry_count j →
         status j' = failed ∧ scheduled_at j' = scheduled_at j).
Proof.
  intros Hq Hst Hrc0 H.
  destruct (complete_job_row _ _ _ _ _ _ _ Hq H) as (j' & -> & Hj').
  exists j'. rewrite lookup_insert_eq. split; [done|].
  pose proof (mark_failed_backoff _ _ _ _ Hj' Hrc0) as Hback.
  apply mark_failed_Ok in Hj' as (Hrc & Hs & _ & Hge & _).
  split; [done|]. split.
  - intros Hbelow. destruct (Hback Hbelow) as [Hsched Hlater].
    rewrite (proj2 (Z.ltb_lt _ _)) in Hs by lia.
    split; [done|]. split; [done|]. lia.
  - intros Hreached. rewrite (proj2 (Z.ltb_ge _ _)) in Hs by lia.
    split; [done|]. by apply Hge.
Qed.

Lemma complete_job_backoff_witness :
  complete_job 1000 8%N false (Some "timeout") fresh_queue
    = Ok {[ 8%N := fresh_job_failed_once ]}
  ∧ scheduled_at fresh_job_failed_once = 1000 + 1 * USECS_PER_MINUTE
  ∧ scheduled_at fresh_job < scheduled_at fresh_job_failed_once.
Proof.
  assert (H : complete_job 1000 8%N false (Some "timeout") fresh_queue
              = Ok {[ 8%N := fresh_job_failed_once ]})
    by (vm_compute; reflexivity).
  assert (Hq : fresh_queue !! 8%N = Some fresh_job)
    by (vm_compute; reflexivity).
  assert (Hst : status fresh_job = processing) by reflexivity.
  assert (Hrc : 0 ≤ retry_count fresh_job) by (vm_compute; discriminate).
  split; [exact H|].
  destruct (complete_job_backoff _ _ _ _ _ _ Hq Hst Hrc H)
    as (j' & Hj' & _ & Hlt & _).
  rewrite lookup_singleton_eq in Hj'. injection Hj' as <-.
  destruct Hlt as (_ & Hsched & Hlater); [reflexivity|].
  split; [exact Hsched|]. apply Hlater. vm_compute. discriminate.
Defined.

(** C2, as stated, fails: the first failure of a job, reported at time
    1000, brings [retry_count] to 1 and schedules the retry one minute
    later, not 2^1 = 2 minutes later. *)
Lemma complete_job_first_backoff_one_minute :
  status fresh_job = processing
  ∧ retry_count fresh_job = 0
  ∧ complete_job 1000 8%N false (Some "timeout") fresh_queue
      = Ok {[ 8%N := fresh_job_failed_once ]}
  ∧ retry_count fresh_job_failed_once = 1
  ∧ scheduled_at fresh_job_failed_once = 1000 + USECS_PER_MINUTE
  ∧ scheduled_at fresh_job_failed_once
      ≠ 1000 + 2 ^ retry_count fresh_job_failed_once * USECS_PER_MINUTE.
Proof. repeat split; by vm_compute. Qed.

(** C3, as amended.  [complete_job] has no guard on the status and never
    signals that a job is already [completed] or [failed]: it applies the
    update it applies to any row.  With [success = true] it always goes
    through and sets the status to [completed] and [completed_at] to [now].
    With [success = false] it goes through exactly when [retry_count + 1]
    fits an [integer] and, if the count found is below [max_retries], the
    backoff of 2^n minutes and [now] plus that backoff are within range, in
    particular for a retry count from 0 to 32 and a clock of this era;
    it then adds one to [retry_count], clears [started_at], stores the error
    message and sets the status to [pending] when the count found is below
    [max_retries], to [failed] otherwise.  What it raises otherwise is a
    numeric or datetime range error. *)
Theorem complete_job_on_terminal now i e (q : job_queue) j :
  q !! i = Some j →
  status j = completed ∨ status j = failed →
  complete_job now i true e q =
    Ok (<[i := mk_job (job_type j) (payload j) completed (priority j)
                (scheduled_at j) (started_at j) (Some now) (error_message j)
                (retry_count j) (max_retries j) (created_at j) now]> q)
  ∧ (∀ q' : job_queue, complete_job now i false e q = Ok q' →
       ∃ j', q' = <[i := j']> q
         ∧ retry_count j' = retry_count j + 1
         ∧ status j' =
             (if retry_count j <? max_retries j then pending else failed)
         ∧ started_at j' = None
         ∧ error_message j' = e
         ∧ completed_at j' = completed_at j)
  ∧ (0 ≤ retry_count j ≤ 32 → 0 ≤ now ≤ 2 ^ 62 →
       ∃ q', complete_job now i false e q = Ok q')
  ∧ ((∃ q', complete_job now i false e q = Ok q')
     ↔ int4 (retry_count j + 1)
       ∧ (retry_count j < max_retries j →
            ∃ d, power2_minutes (retry_count j) = Ok d
              ∧ valid_timestamp (now + d)))
  ∧ (∀ err, complete_job now i false e q = Err err →
       err = numeric_value_out_of_range ∨ err = datetime_value_out_of_range).
Proof.
  intros Hq _. split; [|split; [|split; [|split]]].
  - unfold complete_job. by rewrite Hq.
  - intros q' H.
    destruct (complete_job_row _ _ _ _ _ _ _ Hq H) as (j' & -> & Hj').
    exists j'. split; [done|].
    apply mark_failed_Ok in Hj'
      as (Hrc & Hs & _ & _ & Hstart & Hdone & Herr & _). done.
  - intros Hrc Hnow.
    destruct (mark_failed_succeeds now e j Hrc Hnow) as (j' & Hj').
    exists (<[i := j']> q). unfold complete_job. by rewrite Hq, Hj'.
  - rewrite <-mark_failed_Ok_iff. unfold complete_job. rewrite Hq. split.
    + intros [q' H]. apply bind_Ok in H as (j' & Hj' & _). eauto.
    + intros [j' ->]. simpl. eauto.
  - intros err. unfold complete_job. rewrite Hq.
    destruct (mark_failed now e j) as [j'|err'] eqn:Hj'; simpl; [done|].
    intros [= <-]. by eapply mark_failed_Err.
Qed.

Lemma complete_job_on_terminal_witness :
  complete_job 100 8%N true None finished_queue
    = Ok {[ 8%N := mark_completed 100 finished_job ]}
  ∧ ∃ q', complete_job 100 8%N false None finished_queue = Ok q'.
Proof.
  assert (Hq : finished_queue !! 8%N = Some finished_job)
    by (vm_compute; reflexivity).
  assert (Hst : status finished_job = completed ∨ status finished_job = failed)
    by (left; reflexivity).
  destruct (complete_job_on_terminal 100 8%N None finished_queue finished_job
              Hq Hst) as (Htrue & _ & Hfalse & _).
  split.
  - rewrite Htrue. vm_compute. reflexivity.
  - apply Hfalse; vm_compute; split; discriminate.
Defined.

(** At the bounds: a [failed] job whose [retry_count] is the largest
    [integer] makes the call raise, and one with a count of 33, above
    [max_retries], does not. *)
Example complete_job_on_terminal_at_bounds :
  complete_job 100 8%N false None
    {[ 8%N := job_sample failed 5 0 None int4_max 3 ]}
    = Err numeric_value_out_of_range
  ∧ ∃ q', complete_job 100 8%N false None
            {[ 8%N := job_sample failed 5 0 None 33 3 ]} = Ok q'.
Proof. split; [by vm_compute|]. eexists. by vm_compute. Qed.

(** C3, as stated, fails: a failing [complete_job] on a [completed] job
    returns normally and puts the job back to [pending] with [retry_count]
    raised to 1. *)
Lemma complete_job_reopens_completed :
  status finished_job = completed
  ∧ retry_count finished_job = 0
  ∧ complete_job 100 8%N false (Some "late") finished_queue
      = Ok {[ 8%N := finished_job_reopened ]}
  ∧ status finished_job_reopened = pending
  ∧ retry_count finished_job_reopened = 1.
Proof. repeat split; by vm_compute. Qed.

(** ** JobQueue: invariants of histories *)

Lemma started_at_step now o (q q' : job_queue) r :
  (∀ i j, q !! i = Some j → status j = processing → is_Some (started_at j)) →
  exec now o q = Ok (q', r) →
  ∀ i j, q' !! i = Some j → status j = processing → is_Some (started_at j).
Proof.
  intros HP H i j' Hq' Hst.
  destruct (exec_row _ _ _ _ _ _ _ H Hq')
    as [Hq|[(_ & ty & pl & pr & sch & _ & ->)|
            [(j & _ & _ & _ & ->)|(j & s & e & _ & _ & Hj')]]].
  - by apply (HP i).
  - done.
  - by eexists.
  - destruct s.
    + by subst j'.
    + apply mark_failed_Ok in Hj' as (_ & Hs & _).
      rewrite Hst in Hs. by destruct (_ <? _).
Qed.

Lemma completed_at_step now o (q q' : job_queue) r :
  (∀ i j, q !! i = Some j → status j ≠ completed → completed_at j = None) →
  follows_protocol o q = true →
  exec now o q = Ok (q', r) →
  ∀ i j, q' !! i = Some j → status j ≠ completed → completed_at j = None.
Proof.
  intros HP Hprot H i j' Hq' Hst.
  destruct (exec_row _ _ _ _ _ _ _ H Hq')
    as [Hq|[(_ & ty & pl & pr & sch & _ & ->)|
            [(j & Hq & _ & [Hpend _]%eligible_spec & ->)|
             (j & s & e & Hq & -> & Hj')]]].
  - by apply (HP i).
  - done.
  - simpl. apply (HP i); [done|]. by rewrite Hpend.
  - simpl in Hprot. rewrite Hq in Hprot.
    apply bool_decide_eq_true in Hprot. destruct s.
    + by subst j'.
    + apply mark_failed_Ok in Hj' as (_ & _ & _ & _ & _ & -> & _).
      apply (HP i); [done|]. by rewrite Hprot.
Qed.

Lemma cleanup_old_jobs_keeps_unfinished now d (q q' : job_queue) n i j :
  cleanup_old_jobs now d q = Ok (q', n) →
  q !! i = Some j → completed_at j = None →
  q' !! i = Some j.
Proof.
  intros (_ & -> & _)%cleanup_old_jobs_Ok Hq Hnone.
  apply map_lookup_filter_Some. split; [done|]. simpl.
  unfold purgeable. rewrite Hnone. apply andb_false_r.
Qed.

(** C8, as amended.  In every state reached from the empty queue by calls
    of [enqueue_job], [get_next_job], [complete_job] and [cleanup_old_jobs],
    every [processing] job has [started_at] set.  Its [completed_at] is NULL
    as long as every [complete_job] of the history was called on a job in
    status [processing]. *)
Theorem processing_has_started_at h (q : job_queue) rs i j :
  run h ∅ = Ok (q, rs) →
  q !! i = Some j →
  status j = processing →
  is_Some (started_at j)
  ∧ (obeys h ∅ = true → completed_at j = None).
Proof.
  intros Hrun Hq Hst. split.
  - refine (run_invariant false
      (fun q : job_queue => ∀ i j, q !! i = Some j → status j = processing →
                                   is_Some (started_at j))
      _ h ∅ q rs _ _ Hrun i j Hq Hst).
    + intros now o q0 q1 r HP _ H. by eapply started_at_step.
    + intros i0 j0. by rewrite lookup_empty.
    + done.
  - intros Hob.
    refine (run_invariant true
      (fun q : job_queue => ∀ i j, q !! i = Some j → status j ≠ completed →
                                   completed_at j = None)
      _ h ∅ q rs _ _ Hrun i j Hq _).
    + intros now o q0 q1 r HP Hprot H. eapply completed_at_step; eauto.
    + intros i0 j0. by rewrite lookup_empty.
    + done.
    + by rewrite Hst.
Qed.

Lemma processing_has_started_at_witness :
  run history_claimed ∅ = Ok (fresh_queue, [Enqueued 8%N; Claimed (Some (8%N, fresh_job))])
  ∧ is_Some (started_at fresh_job)
  ∧ completed_at fresh_job = None.
Proof.
  assert (Hrun : run history_claimed ∅ =
                 Ok (fresh_queue, [Enqueued 8%N; Claimed (Some (8%N, fresh_job))]))
    by (vm_compute; reflexivity).
  assert (Hq : fresh_queue !! 8%N = Some fresh_job)
    by (vm_compute; reflexivity).
  assert (Hst : status fresh_job = processing) by reflexivity.
  destruct (processing_has_started_at _ _ _ _ _ Hrun Hq Hst) as [Hs Hc].
  split; [exact Hrun|]. split; [exact Hs|].
  apply Hc. vm_compute. reflexivity.
Defined.

(** C8, as stated, fails: [complete_job] accepts a job that is already
    [completed]; a failing call re-queues it with [completed_at] still set,
    and the next [get_next_job] makes it [processing]. *)
Lemma processing_with_completed_at :
  run history_reopened ∅ =
    Ok ({[ 8%N := reopened_job ]},
        [Enqueued 8%N; Claimed (Some (8%N, fresh_job)); Done; Done;
         Claimed (Some (8%N, reopened_job))])
  ∧ status reopened_job = processing
  ∧ completed_at reopened_job = Some 50.
Proof. repeat split; by vm_compute. Qed.

(** C10, as amended.  [complete_job] with [success = false] never writes
    [completed_at]: the row keeps the value it had, and on the transition to
    [failed] it keeps its [scheduled_at] too.  Consequently, in a history
    from the empty queue in which [complete_job] is only called on
    [processing] jobs, every [failed] job has [completed_at] NULL and
    survives [cleanup_old_jobs] at any time and for any retention. *)
Theorem complete_job_failure_keeps_completed_at :
  (∀ now i e (q q' : job_queue) j,
     q !! i = Some j →
     complete_job now i false e q = Ok q' →
     ∃ j', q' !! i = Some j'
       ∧ completed_at j' = completed_at j
       ∧ (status j' = failed → scheduled_at j' = scheduled_at j))
  ∧ (∀ h (q : job_queue) rs i j,
     run h ∅ = Ok (q, rs) →
     obeys h ∅ = true →
     q !! i = Some j →
     status j = failed →
     completed_at j = None
     ∧ ∀ now d (q' : job_queue) n,
         cleanup_old_jobs now d q = Ok (q', n) → q' !! i = Some j).
Proof.
  split.
  - intros now i e q q' j Hq H.
    destruct (complete_job_row _ _ _ _ _ _ _ Hq H) as (j' & -> & Hj').
    exists j'. rewrite lookup_insert_eq. split; [done|].
    apply mark_failed_Ok in Hj' as (_ & Hs & _ & Hge & _ & Hdone & _).
    split; [done|]. intros Hfailed. apply Hge.
    destruct (retry_count j <? max_retries j) eqn:E.
    + by rewrite Hs in Hfailed.
    + by apply Z.ltb_ge in E.
  - intros h q rs i j Hrun Hob Hq Hst.
    assert (Hnone : completed_at j = None).
    { refine (run_invariant true
        (fun q : job_queue => ∀ i j, q !! i = Some j → status j ≠ completed →
                                     completed_at j = None)
        _ h ∅ q rs _ _ Hrun i j Hq _).
      - intros now o q0 q1 r HP Hprot H. eapply completed_at_step; eauto.
      - intros i0 j0. by rewrite lookup_empty.
      - done.
      - by rewrite Hst. }
    split; [done|]. intros now d q' n Hclean.
    by eapply cleanup_old_jobs_keeps_unfinished.
Qed.

Lemma complete_job_failure_keeps_completed_at_witness :
  completed_at worn_out_job = None
  ∧ cleanup_old_jobs (3650 * USECS_PER_DAY) 7 {[ 8%N := worn_out_job ]}
      = Ok ({[ 8%N := worn_out_job ]}, 0).
Proof.
  destruct complete_job_failure_keeps_completed_at as [_ Hfailed].
  destruct (history_four_failures_runs) as (rs & Hrun & Hob).
  assert (Hq : ({[ 8%N := worn_out_job ]} : job_queue) !! 8%N = Some worn_out_job)
    by (vm_compute; reflexivity).
  destruct (Hfailed _ _ _ _ _ Hrun Hob Hq ltac:(reflexivity)) as [Hnone _].
  split; [exact Hnone|]. vm_compute. reflexivity.
Defined.

(** C10, as stated, fails: a job that was [completed] and on which
    [complete_job] keeps being called with [success = false] reaches
    [failed] through [complete_job] with [completed_at] set, and
    [cleanup_old_jobs] deletes it once that time is older than the
    retention. *)
Lemma failed_with_completed_at_is_purged :
  run history_exhausted ∅ =
    Ok ({[ 8%N := exhausted_job ]},
        [Enqueued 8%N; Claimed (Some (8%N, fresh_job)); Done; Done; Done;
         Done; Done])
  ∧ status exhausted_job = failed
  ∧ completed_at exhausted_job = Some 50
  ∧ cleanup_old_jobs (50 + 8 * USECS_PER_DAY) 7 {[ 8%N := exhausted_job ]}
      = Ok (∅, 1).
Proof. repeat split; by vm_compute. Qed.

(** ** JobQueue: claims made one after the other *)

Lemma elem_of_pending_ids (q : job_queue) i :
  i ∈ pending_ids q ↔ ∃ j, q !! i = Some j ∧ status j = pending.
Proof.
  unfold pending_ids. rewrite elem_of_dom. split.
  - intros [j [Hq Hst]%map_lookup_filter_Some]. eauto.
  - intros (j & Hq & Hst). exists j. by apply map_lookup_filter_Some.
Qed.

(** X4. When the calls of [get_next_job] run one after the other, each as one
    step, no job is handed out twice, every job handed out was pending at
    the start, and so no more jobs are handed out than were pending. *)
Lemma serial_claims_distinct h : ∀ (q q' : job_queue) rs,
  Forall (fun c : timestamptz * op => c.2 = ClaimNext) h →
  run h q = Ok (q', rs) →
  NoDup (claimed_ids rs)
  ∧ (∀ i, i ∈ claimed_ids rs → i ∈ pending_ids q)
  ∧ (length (claimed_ids rs) ≤ size (pending_ids q))%nat.
Proof.
  assert (Hcount : ∀ (l : list uuid) (X : gset uuid),
            NoDup l → (∀ i, i ∈ l → i ∈ X) → (length l ≤ size X)%nat).
  { intros l X Hnd Hsub. rewrite <-(size_list_to_set (C:=gset uuid)) by done.
    apply subseteq_size. intros i Hi%elem_of_list_to_set. auto. }
  induction h as [|[now o] h IH]; intros q q' rs Hh H; simpl in H.
  - injection H as <- <-. simpl. split; [constructor|].
    split; [by intros i Hi%elem_of_nil|lia].
  - apply Forall_cons in Hh as [Ho Hh]. simpl in Ho. subst o.
    apply bind_Ok in H as ([q1 r] & H1 & H).
    apply bind_Ok in H as ([q2 rs2] & H2 & [= <- <-]).
    destruct (IH _ _ _ Hh H2) as (Hnd & Hsub & _).
    simpl in H1. unfold get_next_job in H1.
    destruct (next_candidate now q) as [[i j]|] eqn:Hc.
    + injection H1 as <- <-.
      apply next_candidate_Some in Hc as (Hq & [Hst _]%eligible_spec & _).
      assert (Hmono : ∀ i', i' ∈ pending_ids (<[i := claim now j]> q) →
                i' ≠ i ∧ i' ∈ pending_ids q).
      { intros i' (j' & Hq' & Hst')%elem_of_pending_ids.
        destruct (decide (i = i')) as [<-|Hne].
        - rewrite lookup_insert_eq in Hq'. by injection Hq' as <-.
        - rewrite lookup_insert_ne in Hq' by done.
          split; [done|]. apply elem_of_pending_ids. eauto. }
      assert (Hres : NoDup (i :: claimed_ids rs2)
                     ∧ ∀ i', i' ∈ i :: claimed_ids rs2 → i' ∈ pending_ids q).
      { split.
        - constructor; [|done]. intros Hi. by destruct (Hmono _ (Hsub _ Hi)).
        - intros i' [->|Hi']%elem_of_cons.
          + apply elem_of_pending_ids. eauto.
          + by destruct (Hmono _ (Hsub _ Hi')). }
      destruct Hres as [Hnd' Hsub']. simpl.
      split; [done|]. split; [done|].
      by apply (Hcount (i :: claimed_ids rs2)).
    + injection H1 as <- <-. simpl.
      split; [done|]. split; [done|]. by apply Hcount.
Qed.

(** ** JobQueue: [enqueue_job] and what follows *)

(** Called with arguments that are not NULL, [enqueue_job] goes through
    exactly when the drawn [id] is unused.  It then returns that [id], stores under it a [pending] job with the
    given type, payload, priority and schedule, no start, completion or
    error, [retry_count = 0] and [max_retries = 3], and leaves every
    other row as it is: the queue grows by one row. *)
Lemma enqueue_job_adds_one_pending fresh now ty pl pr sch (q : job_queue) :
  match enqueue_job fresh now ty pl pr sch q with
  | Ok (q', i) =>
      i = fresh
      ∧ q !! fresh = None
      ∧ q' !! fresh = Some (mk_job ty pl pending pr sch None None None 0 3 now now)
      ∧ (∀ i', i' ≠ fresh → q' !! i' = q !! i')
      ∧ size q' = S (size q)
  | Err e => e = unique_violation ∧ is_Some (q !! fresh)
  end.
Proof.
  unfold enqueue_job. destruct (q !! fresh) as [j|] eqn:Hq.
  - split; [done|]. by exists j.
  - split; [done|]. split; [done|]. split; [apply lookup_insert_eq|].
    split; [intros i' Hne; by rewrite lookup_insert_ne|].
    by apply map_size_insert_None.
Qed.

(** X2. The call of [get_next_job] that directly follows an [enqueue_job]
    does not hand out the new job when it is made before the job's
    [scheduled_at]; made from then on, it returns a job, of priority at
    least that of the new job, and it returns the new job itself when no
    older job is pending and due. *)
Theorem enqueued_job_is_claimable fresh now ty pl pr sch (q q1 : job_queue) i t :
  enqueue_job fresh now ty pl pr sch q = Ok (q1, i) →
  (sch ≤ t →
     ∃ r, (get_next_job t q1).2 = Some r
       ∧ pr ≤ priority r.2
       ∧ ((∀ i' j', q !! i' = Some j' → eligible t j' = false) →
            r = (i, claim t (new_job now ty pl pr sch))))
  ∧ (t < sch → ∀ r, (get_next_job t q1).2 = Some r → r.1 ≠ i).
Proof.
  unfold enqueue_job. destruct (q !! fresh) eqn:Hfresh; [done|].
  intros [= <- <-]. set (j0 := new_job now ty pl pr sch).
  assert (Hq1 : <[fresh := j0]> q !! fresh = Some j0) by apply lookup_insert_eq.
  unfold get_next_job. split.
  - intros Hdue.
    assert (Hel : eligible t j0 = true) by (apply eligible_spec; done).
    destruct (next_candidate t (<[fresh := j0]> q)) as [[i1 j1]|] eqn:Hc.
    + apply next_candidate_Some in Hc as (Hq & Hel1 & Hbest).
      exists (i1, claim t j1). split; [done|]. split.
      * specialize (Hbest _ _ Hq1 Hel). apply sorts_before_false in Hbest.
        simpl in *. lia.
      * intros Hnone. destruct (decide (i1 = fresh)) as [->|Hne].
        -- rewrite Hq1 in Hq. by injection Hq as <-.
        -- rewrite lookup_insert_ne in Hq by done.
           by rewrite (Hnone _ _ Hq) in Hel1.
    + rewrite next_candidate_None in Hc. by rewrite (Hc _ _ Hq1) in Hel.
  - intros Hearly [i1 j1'] Hr.
    destruct (next_candidate t (<[fresh := j0]> q)) as [[i2 j2]|] eqn:Hc;
      [|done].
    injection Hr as <- <-.
    apply next_candidate_Some in Hc as (Hq & [_ Hdue]%eligible_spec & _).
    simpl. intros ->. rewrite Hq1 in Hq. injection Hq as <-. simpl in Hdue. lia.
Qed.

Lemma enqueued_job_is_claimable_witness :
  ∃ r, (get_next_job 5 (<[9%N := new_job 0 "send_email" "{}" 20 5]> pair_queue)).2
         = Some r
    ∧ 20 ≤ priority r.2.
Proof.
  assert (H : enqueue_job 9%N 0 "send_email" "{}" 20 5 pair_queue
              = Ok (<[9%N := new_job 0 "send_email" "{}" 20 5]> pair_queue, 9%N))
    by (vm_compute; reflexivity).
  destruct (enqueued_job_is_claimable _ _ _ _ _ _ _ _ _ 5 H) as [Hdue _].
  destruct Hdue as (r & Hr & Hpr & _); [lia|].
  exists r. split; [exact Hr|exact Hpr].
Defined.

(** X3. Two calls of [get_next_job], one after the other, hand out two
    different jobs, and in queue order: the second job, if it was already
    due at the first call, has no higher priority than the first and, at
    equal priority, no earlier [scheduled_at]. *)
Theorem get_next_job_twice_in_order now1 now2 (q q1 q2 : job_queue) i1 j1 i2 j2 :
  get_next_job now1 q = (q1, Some (i1, j1)) →
  get_next_job now2 q1 = (q2, Some (i2, j2)) →
  i1 ≠ i2
  ∧ (scheduled_at j2 ≤ now1 →
       priority j2 ≤ priority j1
       ∧ (priority j2 = priority j1 → scheduled_at j1 ≤ scheduled_at j2)).
Proof.
  unfold get_next_job. intros H1 H2.
  destruct (next_candidate now1 q) as [[a ja]|] eqn:Ha; [|done].
  injection H1 as <- <- <-.
  destruct (next_candidate now2 (<[a := claim now1 ja]> q)) as [[b jb]|] eqn:Hb;
    [|done].
  injection H2 as <- <- <-.
  apply next_candidate_Some in Ha as (Hqa & Hela & Hbest).
  apply next_candidate_Some in Hb as (Hqb & [Hstb Hdueb]%eligible_spec & _).
  assert (Hne : a ≠ b).
  { intros <-. rewrite lookup_insert_eq in Hqb. by injection Hqb as <-. }
  split; [done|]. rewrite lookup_insert_ne in Hqb by done.
  simpl. intros Hdue1.
  assert (Hsb : sorts_before jb ja = false).
  { apply (Hbest _ _ Hqb). by apply eligible_spec. }
  apply sorts_before_false in Hsb. lia.
Qed.

Lemma get_next_job_twice_in_order_witness :
  get_next_job 10 pair_queue
    = (<[2%N := claim 10 (job_sample pending 10 5 None 0 3)]> pair_queue,
       Some (2%N, claim 10 (job_sample pending 10 5 None 0 3)))
  ∧ 2%N ≠ 1%N.
Proof.
  assert (H1 : get_next_job 10 pair_queue
    = (<[2%N := claim 10 (job_sample pending 10 5 None 0 3)]> pair_queue,
       Some (2%N, claim 10 (job_sample pending 10 5 None 0 3))))
    by (vm_compute; reflexivity).
  assert (H2 : get_next_job 11
      (<[2%N := claim 10 (job_sample pending 10 5 None 0 3)]> pair_queue)
    = (<[1%N := claim 11 (job_sample pending 1 0 None 0 3)]>
         (<[2%N := claim 10 (job_sample pending 10 5 None 0 3)]> pair_queue),
       Some (1%N, claim 11 (job_sample pending 1 0 None 0 3))))
    by (vm_compute; reflexivity).
  split; [exact H1|].
  exact (proj1 (get_next_job_twice_in_order _ _ _ _ _ _ _ _ _ H1 H2)).
Defined.

Lemma serial_claims_distinct_witness :
  claimed_ids pair_queue_drained.2 = [2%N; 1%N]
  ∧ NoDup (claimed_ids pair_queue_drained.2).
Proof.
  assert (Hh : Forall (fun c : timestamptz * op => c.2 = ClaimNext) three_claims)
    by (repeat constructor).
  assert (Hrun : run three_claims pair_queue
                 = Ok (pair_queue_drained.1, pair_queue_drained.2))
    by (vm_compute; reflexivity).
  split; [vm_compute; reflexivity|].
  exact (proj1 (serial_claims_distinct _ _ _ _ Hh Hrun)).
Defined.

(** ** JobQueue: retries *)



(** X6. The backoff doubles from one failure to the next: when a job fails,
    is handed out again and fails again, the delay granted after the second
    failure is twice the delay granted after the first. *)
Theorem backoff_doubles now1 t now2 i e1 e2 (q q1 q2 q3 : job_queue) j jc :
  q !! i = Some j →
  0 ≤ retry_count j →
  retry_count j + 1 < max_retries j →
  complete_job now1 i false e1 q = Ok q1 →
  get_next_job t q1 = (q2, Some (i, jc)) →
  complete_job now2 i false e2 q2 = Ok q3 →
  ∃ j1 j3, q1 !! i = Some j1 ∧ q3 !! i = Some j3
    ∧ status j3 = pending
    ∧ scheduled_at j3 - now2 = 2 * (scheduled_at j1 - now1).
Proof.
  intros Hq Hrc0 Hbelow H1 Hclaim H2.
  destruct (complete_job_row _ _ _ _ _ _ _ Hq H1) as (j1 & -> & Hj1).
  assert (Hq1 : <[i := j1]> q !! i = Some j1) by apply lookup_insert_eq.
  unfold get_next_job in Hclaim.
  destruct (next_candidate t (<[i := j1]> q)) as [[i0 j0]|] eqn:Hc; [|done].
  injection Hclaim as <- <- <-.
  apply next_candidate_Some in Hc as (Hq0 & _ & _).
  rewrite Hq1 in Hq0. injection Hq0 as <-.
  assert (Hq2 : <[i0 := claim t j1]> (<[i0 := j1]> q) !! i0 = Some (claim t j1))
    by apply lookup_insert_eq.
  destruct (complete_job_row _ _ _ _ _ _ _ Hq2 H2) as (j3 & -> & Hj3).
  exists j1, j3. split; [done|]. split; [apply lookup_insert_eq|].
  destruct (mark_failed_backoff _ _ _ _ Hj1 Hrc0 ltac:(lia)) as [Hs1 _].
  apply mark_failed_Ok in Hj1 as (Hrc1 & _ & _ & _ & _ & _ & _ & Hmr1 & _).
  assert (Hrc0' : 0 ≤ retry_count (claim t j1)) by (simpl; lia).
  assert (Hbelow' : retry_count (claim t j1) < max_retries (claim t j1))
    by (simpl; lia).
  destruct (mark_failed_backoff _ _ _ _ Hj3 Hrc0' Hbelow') as [Hs3 _].
  apply mark_failed_Ok in Hj3 as (_ & Hst3 & _).
  rewrite (proj2 (Z.ltb_lt _ _)) in Hst3 by done.
  split; [done|]. rewrite Hs1, Hs3. simpl. rewrite Hrc1.
  rewrite Z.pow_add_r by lia. lia.
Qed.

(** X7. [complete_job] called n times in a row with [success = false] on a
    job, n at least one, adds n to its [retry_count]; the job is then
    [pending] as long as the new count does not exceed [max_retries] and
    [failed] once it does: it takes [max_retries + 1] failures to fail a
    new job for good. *)
Theorem repeated_failures i e ts : ∀ (q q' : job_queue) rs j,
  q !! i = Some j →
  ts ≠ [] →
  run (failures i e ts) q = Ok (q', rs) →
  ∃ j', q' !! i = Some j'
    ∧ retry_count j' = retry_count j + Z.of_nat (length ts)
    ∧ max_retries j' = max_retries j
    ∧ status j' =
        (if retry_count j + Z.of_nat (length ts) <=? max_retries j
         then pending else failed).
Proof.
  induction ts as [|t ts IH]; intros q q' rs j Hq Hne H; [done|].
  simpl in H.
  apply bind_Ok in H as ([q1 r] & H1 & H).
  apply bind_Ok in H as ([q2 rs2] & H2 & [= <- <-]).
  simpl in H1. apply bind_Ok in H1 as (q1' & H1 & [= <- <-]).
  destruct (complete_job_row _ _ _ _ _ _ _ Hq H1) as (j1 & -> & Hj1).
  apply mark_failed_Ok in Hj1 as (Hrc1 & Hs1 & _ & _ & _ & _ & _ & Hmr1 & _).
  destruct ts as [|t' ts].
  - simpl in H2. injection H2 as <- <-. exists j1.
    rewrite lookup_insert_eq. split; [done|]. split; [simpl; lia|].
    split; [done|]. rewrite Hs1. simpl.
    destruct (retry_count j <? max_retries j) eqn:E.
    + apply Z.ltb_lt in E. by rewrite (proj2 (Z.leb_le _ _)) by lia.
    + apply Z.ltb_ge in E. by rewrite (proj2 (Z.leb_gt _ _)) by lia.
  - destruct (IH _ _ _ j1 (lookup_insert_eq _ _ _) ltac:(done) H2)
      as (j' & Hq' & Hrc' & Hmr' & Hs').
    exists j'. split; [done|].
    rewrite Hrc', Hmr', Hrc1, Hmr1 in *.
    replace (retry_count j + Z.of_nat (length (t :: t' :: ts)))
      with (retry_count j + 1 + Z.of_nat (length (t' :: ts)))
      by (simpl length; lia).
    done.
Qed.

Lemma repeated_failures_witness :
  run (failures 8%N (Some "late") [100; 101; 102; 103]) fresh_queue
    = Ok (fresh_queue_worn.1, fresh_queue_worn.2)
  ∧ ∃ j', fresh_queue_worn.1 !! 8%N = Some j'
      ∧ retry_count j' = 4 ∧ status j' = failed.
Proof.
  assert (Hq : fresh_queue !! 8%N = Some fresh_job) by (vm_compute; reflexivity).
  assert (Hne : [100; 101; 102; 103] ≠ []) by discriminate.
  assert (Hrun : run (failures 8%N (Some "late") [100; 101; 102; 103])
                   fresh_queue
                 = Ok (fresh_queue_worn.1, fresh_queue_worn.2))
    by (vm_compute; reflexivity).
  split; [exact Hrun|].
  destruct (repeated_failures _ _ _ _ _ _ _ Hq Hne Hrun)
    as (j' & Hq' & Hrc & _ & Hst).
  exists j'. split; [exact Hq'|]. split; [exact Hrc|exact Hst].
Defined.

Lemma backoff_doubles_witness :
  scheduled_at fresh_job_failed_once - 1000 = 1 * USECS_PER_MINUTE
  ∧ ∃ j1 j3,
      ({[ 8%N := fresh_job_failed_once ]} : job_queue) !! 8%N = Some j1
      ∧ ({[ 8%N := fresh_job_failed_twice ]} : job_queue) !! 8%N = Some j3
      ∧ status j3 = pending
      ∧ scheduled_at j3 - 60002000 = 2 * (scheduled_at j1 - 1000).
Proof.
  assert (Hq : fresh_queue !! 8%N = Some fresh_job) by (vm_compute; reflexivity).
  assert (H1 : complete_job 1000 8%N false (Some "timeout") fresh_queue
               = Ok {[ 8%N := fresh_job_failed_once ]})
    by (vm_compute; reflexivity).
  assert (Hc : get_next_job 60001000 {[ 8%N := fresh_job_failed_once ]}
               = ({[ 8%N := claim 60001000 fresh_job_failed_once ]},
                  Some (8%N, claim 60001000 fresh_job_failed_once)))
    by (vm_compute; reflexivity).
  assert (H2 : complete_job 60002000 8%N false (Some "timeout")
                 {[ 8%N := claim 60001000 fresh_job_failed_once ]}
               = Ok {[ 8%N := fresh_job_failed_twice ]})
    by (vm_compute; reflexivity).
  assert (Hrc0 : 0 ≤ retry_count fresh_job) by (vm_compute; discriminate).
  assert (Hbelow : retry_count fresh_job + 1 < max_retries fresh_job)
    by (vm_compute; reflexivity).
  split; [vm_compute; reflexivity|].
  exact (backoff_doubles _ _ _ _ _ _ _ _ _ _ _ _ Hq Hrc0 Hbelow H1 Hc H2).
Defined.

(** ** JobQueue: what no call does *)

(** X8. No call changes what a job is or undoes its record: a row present
    before and after a call of [enqueue_job], [get_next_job], [complete_job]
    or [cleanup_old_jobs] keeps its type, payload, priority, [max_retries]
    and [created_at]; its [retry_count] does not decrease, and a
    [completed_at] that was set stays set. *)
Theorem calls_keep_job_identity now o (q q' : job_queue) r i j j' :
  exec now o q = Ok (q', r) →
  q !! i = Some j →
  q' !! i = Some j' →
  job_type j' = job_type j
  ∧ payload j' = payload j
  ∧ priority j' = priority j
  ∧ max_retries j' = max_retries j
  ∧ created_at j' = created_at j
  ∧ retry_count j ≤ retry_count j'
  ∧ (is_Some (completed_at j) → is_Some (completed_at j')).
Proof.
  intros H Hq Hq'.
  destruct (exec_row _ _ _ _ _ _ _ H Hq')
    as [Hsame|[(Hnone & _)|
               [(j0 & Hq0 & _ & _ & ->)|(j0 & s & e & Hq0 & _ & Hj')]]].
  - rewrite Hq in Hsame. injection Hsame as <-. repeat split; [lia|done].
  - by rewrite Hq in Hnone.
  - rewrite Hq in Hq0. injection Hq0 as <-. simpl. repeat split; [lia|done].
  - rewrite Hq in Hq0. injection Hq0 as <-. destruct s.
    + subst j'. simpl. repeat split; [lia|by eexists].
    + apply mark_failed_Ok in Hj'
        as (Hrc & _ & _ & _ & _ & Hdone & _ & Hmr & Hpr & Hty & Hpl & Hcr & _).
      rewrite Hrc, Hdone, Hmr, Hpr, Hty, Hpl, Hcr. repeat split; [lia|done].
Qed.

Lemma calls_keep_job_identity_witness :
  retry_count fresh_job ≤ retry_count fresh_job_failed_once
  ∧ priority fresh_job_failed_once = priority fresh_job.
Proof.
  assert (H : exec 1000 (Complete 8%N false (Some "timeout")) fresh_queue
              = Ok ({[ 8%N := fresh_job_failed_once ]}, Done))
    by (vm_compute; reflexivity).
  assert (Hq : fresh_queue !! 8%N = Some fresh_job) by (vm_compute; reflexivity).
  assert (Hq' : ({[ 8%N := fresh_job_failed_once ]} : job_queue) !! 8%N
                = Some fresh_job_failed_once) by (vm_compute; reflexivity).
  destruct (calls_keep_job_identity _ _ _ _ _ _ _ _ H Hq Hq')
    as (_ & _ & Hpr & _ & _ & Hrc & _).
  split; [exact Hrc|exact Hpr].
Defined.

Lemma well_formed_step now o (q q' : job_queue) r :
  (∀ i j, q !! i = Some j →
     max_retries j = 3 ∧ 0 ≤ retry_count j
     ∧ (status j = pending ∨ status j = failed → started_at j = None)
     ∧ (status j = completed → is_Some (completed_at j))) →
  exec now o q = Ok (q', r) →
  ∀ i j, q' !! i = Some j →
    max_retries j = 3 ∧ 0 ≤ retry_count j
    ∧ (status j = pending ∨ status j = failed → started_at j = None)
    ∧ (status j = completed → is_Some (completed_at j)).
Proof.
  intros HP H i j' Hq'.
  destruct (exec_row _ _ _ _ _ _ _ H Hq')
    as [Hq|[(_ & ty & pl & pr & sch & _ & ->)|
            [(j & Hq & _ & _ & ->)|(j & s & e & Hq & _ & Hj')]]].
  - by apply (HP i).
  - simpl. repeat split; [lia|done].
  - destruct (HP _ _ Hq) as (Hmr & Hrc & _ & _). simpl.
    repeat split; [done|done|by intros [?|?]|done].
  - destruct (HP _ _ Hq) as (Hmr & Hrc & _ & _). destruct s.
    + subst j'. simpl. repeat split; [done|done|by intros [?|?]|by eexists].
    + apply mark_failed_Ok in Hj'
        as (Hrc' & Hs & _ & _ & Hst & _ & _ & Hmr' & _).
      rewrite Hrc', Hmr'. repeat split; [done|lia|done|].
      rewrite Hs. by destruct (_ <? _).
Qed.

Lemma retry_budget_step now o (q q' : job_queue) r :
  (∀ i j, q !! i = Some j → max_retries j = 3) →
  (∀ i j, q !! i = Some j →
     retry_count j ≤ max_retries j + 1
     ∧ (status j = pending ∨ status j = processing →
          retry_count j ≤ max_retries j)) →
  follows_protocol o q = true →
  exec now o q = Ok (q', r) →
  ∀ i j, q' !! i = Some j →
    retry_count j ≤ max_retries j + 1
    ∧ (status j = pending ∨ status j = processing →
         retry_count j ≤ max_retries j).
Proof.
  intros Hthree HP Hprot H i j' Hq'.
  destruct (exec_row _ _ _ _ _ _ _ H Hq')
    as [Hq|[(_ & ty & pl & pr & sch & _ & ->)|
            [(j & Hq & _ & [Hpend _]%eligible_spec & ->)|
             (j & s & e & Hq & -> & Hj')]]].
  - by apply (HP i).
  - simpl. lia.
  - destruct (HP _ _ Hq) as [_ Hle]. simpl.
    specialize (Hle (or_introl Hpend)). lia.
  - simpl in Hprot. rewrite Hq in Hprot.
    apply bool_decide_eq_true in Hprot.
    destruct (HP _ _ Hq) as [_ Hle]. specialize (Hle (or_intror Hprot)).
    destruct s.
    + subst j'. simpl. split; [lia|]. by intros [?|?].
    + apply mark_failed_Ok in Hj' as (Hrc' & Hs & _ & _ & _ & _ & _ & Hmr' & _).
      rewrite Hrc', Hmr', Hs. split; [lia|].
      destruct (retry_count j <? max_retries j) eqn:E.
      * apply Z.ltb_lt in E. lia.
      * by intros [?|?].
Qed.

Lemma reachable_well_formed h (q : job_queue) rs :
  run h ∅ = Ok (q, rs) →
  ∀ i j, q !! i = Some j →
    max_retries j = 3 ∧ 0 ≤ retry_count j
    ∧ (status j = pending ∨ status j = failed → started_at j = None)
    ∧ (status j = completed → is_Some (completed_at j)).
Proof.
  intros Hrun.
  refine (run_invariant false
    (fun q : job_queue => ∀ i j, q !! i = Some j →
       max_retries j = 3 ∧ 0 ≤ retry_count j
       ∧ (status j = pending ∨ status j = failed → started_at j = None)
       ∧ (status j = completed → is_Some (completed_at j)))
    _ h ∅ q rs _ _ Hrun).
  - intros now o qa qb r HP _ H. by eapply well_formed_step.
  - intros i0 j0. by rewrite lookup_empty.
  - done.
Qed.

Lemma reachable_retry_budget h (q : job_queue) rs :
  run h ∅ = Ok (q, rs) →
  obeys h ∅ = true →
  ∀ i j, q !! i = Some j →
    retry_count j ≤ max_retries j + 1
    ∧ (status j = pending ∨ status j = processing →
         retry_count j ≤ max_retries j).
Proof.
  intros Hrun Hob.
  refine (proj2 (run_invariant true
    (fun q : job_queue =>
       (∀ i j, q !! i = Some j →
          max_retries j = 3 ∧ 0 ≤ retry_count j
          ∧ (status j = pending ∨ status j = failed → started_at j = None)
          ∧ (status j = completed → is_Some (completed_at j)))
       ∧ ∀ i j, q !! i = Some j →
           retry_count j ≤ max_retries j + 1
           ∧ (status j = pending ∨ status j = processing →
                retry_count j ≤ max_retries j))
    _ h ∅ q rs _ (fun _ => Hob) Hrun)).
  - intros now o qa qb r [Hwf HP] Hprot H. split.
    + by eapply well_formed_step.
    + eapply retry_budget_step; eauto. intros i0 j0 Hq0.
      by destruct (Hwf _ _ Hq0).
  - split; intros i0 j0; by rewrite lookup_empty.
Qed.

(** X9. In every state reached from the empty queue by calls of the four
    functions, every job has [max_retries = 3], since [enqueue_job] leaves
    the default and no function writes the column, and a [retry_count] that
    is not negative; a [pending] or [failed] job has no [started_at] and a
    [completed] job has its [completed_at].  When [complete_job] is only
    called on [processing] jobs, [retry_count] never exceeds 4, and is at
    most 3 for a job that is [pending] or [processing]: a job is run at
    most four times. *)
Theorem reachable_jobs_well_formed h (q : job_queue) rs i j :
  run h ∅ = Ok (q, rs) →
  q !! i = Some j →
  max_retries j = 3
  ∧ 0 ≤ retry_count j
  ∧ (status j = pending ∨ status j = failed → started_at j = None)
  ∧ (status j = completed → is_Some (completed_at j))
  ∧ (obeys h ∅ = true →
       retry_count j ≤ 4
       ∧ (status j = pending ∨ status j = processing → retry_count j ≤ 3)).
Proof.
  intros Hrun Hq.
  destruct (reachable_well_formed _ _ _ Hrun _ _ Hq) as (Hmr & Hrc & Hst & Hdone).
  split; [done|]. split; [done|]. split; [done|]. split; [done|].
  intros Hob.
  destruct (reachable_retry_budget _ _ _ Hrun Hob _ _ Hq) as [Hle Hlive].
  rewrite Hmr in Hle, Hlive.
  split; [lia|]. intros Hs. specialize (Hlive Hs). lia.
Qed.

Lemma reachable_jobs_well_formed_witness :
  max_retries worn_out_job = 3 ∧ retry_count worn_out_job ≤ 4.
Proof.
  destruct history_four_failures_runs as (rs & Hrun & Hob).
  assert (Hq : ({[ 8%N := worn_out_job ]} : job_queue) !! 8%N = Some worn_out_job)
    by (vm_compute; reflexivity).
  destruct (reachable_jobs_well_formed _ _ _ _ _ Hrun Hq)
    as (Hmr & _ & _ & _ & Hbudget).
  split; [exact Hmr|]. exact (proj1 (Hbudget Hob)).
Defined.

(** X13. [complete_job] touches at most the row of the given [id]: it adds
    and deletes no row, leaves every other row as it is, and for an [id]
    that is not in the table it returns normally without any change. *)
Theorem complete_job_touches_one_row now i s e (q q' : job_queue) :
  complete_job now i s e q = Ok q' →
  dom q' = dom q
  ∧ (∀ i', i' ≠ i → q' !! i' = q !! i')
  ∧ (q !! i = None → q' = q).
Proof.
  intros H. destruct (q !! i) as [j|] eqn:Hq.
  - destruct (complete_job_row _ _ _ _ _ _ _ Hq H) as (j' & -> & _).
    split; [|split; [|done]].
    + by apply dom_insert_lookup_L.
    + intros i' Hne. by rewrite lookup_insert_ne.
  - rewrite complete_job_missing in H by done. injection H as <-. done.
Qed.

Lemma complete_job_touches_one_row_witness :
  complete_job 1000 99%N false (Some "timeout") fresh_queue = Ok fresh_queue
  ∧ dom fresh_queue = dom fresh_queue.
Proof.
  assert (H : complete_job 1000 99%N false (Some "timeout") fresh_queue
              = Ok fresh_queue) by (vm_compute; reflexivity).
  split; [exact H|].
  exact (proj1 (complete_job_touches_one_row _ _ _ _ _ _ H)).
Defined.

(** ** JobQueue: the reaper run again *)

(** X10. [cleanup_old_jobs] returns a count that is not negative, and run
    again at the same time with the same retention it finds nothing left to
    delete.  A longer retention deletes no more: the rows that survive
    [d] days of retention survive any [d'] of at least [d]. *)
Theorem cleanup_old_jobs_idempotent now d d' (q q1 : job_queue) n1 :
  cleanup_old_jobs now d q = Ok (q1, n1) →
  0 ≤ n1
  ∧ cleanup_old_jobs now d q1 = Ok (q1, 0)
  ∧ (d ≤ d' → ∀ (q2 : job_queue) n2,
       cleanup_old_jobs now d' q = Ok (q2, n2) → q1 ⊆ q2 ∧ n2 ≤ n1).
Proof.
  intros H. pose proof H as (Hv & -> & ->)%cleanup_old_jobs_Ok.
  assert (Hsize : ∀ c, (size (filter (fun r : job_row =>
                                      purgeable c r.2 = false) q)
                        ≤ size q)%nat).
  { intros c. apply map_subseteq_size, map_filter_subseteq. }
  split; [specialize (Hsize (now - d * USECS_PER_DAY)); lia|]. split.
  - unfold cleanup_old_jobs, days_before, check_timestamp.
    rewrite bool_decide_eq_true_2 by done. simpl.
    assert (Hid : filter (fun r : job_row =>
                            purgeable (now - d * USECS_PER_DAY) r.2 = false)
                    (filter (fun r : job_row =>
                               purgeable (now - d * USECS_PER_DAY) r.2 = false)
                       q)
                  = filter (fun r : job_row =>
                              purgeable (now - d * USECS_PER_DAY) r.2 = false)
                      q).
    { apply map_eq. intros i. apply option_eq. intros j.
      rewrite !map_lookup_filter_Some. split; [by intros [[? ?] ?]|by intros [? ?]]. }
    rewrite Hid, Z.sub_diag.
    by rewrite bool_decide_eq_true_2 by done.
  - intros Hd q2 n2 (_ & -> & ->)%cleanup_old_jobs_Ok.
    assert (Hsub : filter (fun r : job_row =>
                             purgeable (now - d * USECS_PER_DAY) r.2 = false) q
                   ⊆ filter (fun r : job_row =>
                               purgeable (now - d' * USECS_PER_DAY) r.2 = false)
                       q).
    { apply map_subseteq_spec. intros i j.
      rewrite !map_lookup_filter_Some. intros [Hq Hkeep]. split; [done|].
      simpl in *. apply not_true_iff_false.
      intros (Hst & t & Ht & Hlt)%purgeable_spec.
      apply not_true_iff_false in Hkeep. apply Hkeep, purgeable_spec.
      split; [done|]. exists t. split; [done|].
      unfold USECS_PER_DAY in *. lia. }
    split; [done|]. apply map_subseteq_size in Hsub. lia.
Qed.

Lemma cleanup_old_jobs_idempotent_witness :
  cleanup_old_jobs one_year 7 (delete 3%N aged_sample)
    = Ok (delete 3%N aged_sample, 0).
Proof.
  assert (H : cleanup_old_jobs one_year 7 aged_sample =
                Ok (delete 3%N aged_sample, 1)) by (vm_compute; reflexivity).
  exact (proj1 (proj2 (cleanup_old_jobs_idempotent _ _ 7 _ _ _ H))).
Defined.

(** ** UsageMeter: order and bounds *)

Lemma issued_Permutation f k cs cs' :
  cs ≡ₚ cs' → issued f k cs = issued f k cs'.
Proof.
  induction 1 as [|c cs cs' _ IH|c1 c2 cs|cs1 cs2 cs3 _ IH1 _ IH2].
  - done.
  - by rewrite !issued_cons, IH.
  - rewrite !issued_cons. lia.
  - by rewrite IH1.
Qed.

(** X11. The accumulators do not depend on the order of the calls: two
    sequences of calls of [increment_usage_metric] that differ only in
    their order, both run from the same table, leave under every key rows
    with the same usage count, tokens and cost. *)
Theorem apply_calls_order_independent (cs cs' : list increment_call)
    (t t1 t2 : daily_usage_metrics) (k : usage_key) (r1 : usage_metric) :
  cs ≡ₚ cs' →
  apply_calls cs t = Ok t1 →
  apply_calls cs' t = Ok t2 →
  t1 !! k = Some r1 →
  ∃ r2, t2 !! k = Some r2
    ∧ usage_count r2 = usage_count r1
    ∧ tokens_used r2 = tokens_used r1
    ∧ estimated_cost_cents r2 = estimated_cost_cents r1.
Proof.
  intros Hperm H1 H2 Hr1.
  apply (apply_calls_lookup _ _ _ k) in H1 as (Hu1 & Ht1 & Hc1 & Hs1).
  apply (apply_calls_lookup _ _ _ k) in H2 as (Hu2 & Ht2 & Hc2 & Hs2).
  assert (Hsome : is_Some (t2 !! k)).
  { apply Hs2. destruct (proj1 Hs1 (mk_is_Some _ _ Hr1)) as [?|Hex]; [by left|].
    right. apply Exists_exists in Hex as (c & Hin & Hk).
    apply Exists_exists. exists c. split; [|done]. by rewrite <-Hperm. }
  destruct Hsome as [r2 Hr2]. exists r2. split; [done|].
  rewrite Hr1 in Hu1, Ht1, Hc1. rewrite Hr2 in Hu2, Ht2, Hc2.
  simpl in *.
  rewrite <-(issued_Permutation _ k _ _ Hperm) in Hu2.
  rewrite <-(issued_Permutation _ k _ _ Hperm) in Ht2.
  rewrite <-(issued_Permutation _ k _ _ Hperm) in Hc2.
  rewrite Hu1, Hu2, Ht1, Ht2, Hc1, Hc2. done.
Qed.

Lemma apply_calls_order_independent_witness :
  ∃ r2, metrics_after_reordered !! openai_chat = Some r2
    ∧ usage_count r2 = 3
    ∧ tokens_used r2 = Some 350
    ∧ estimated_cost_cents r2 = 10.
Proof.
  assert (Hperm : calls_sample ≡ₚ calls_sample_reordered).
  { unfold calls_sample, calls_sample_reordered.
    etrans; [apply perm_skip, perm_swap|]. apply perm_swap. }
  assert (H1 : apply_calls calls_sample ∅ = Ok metrics_after_sample)
    by reflexivity.
  assert (H2 : apply_calls calls_sample_reordered ∅ = Ok metrics_after_reordered)
    by reflexivity.
  assert (Hr1 : metrics_after_sample !! openai_chat
                = Some (mk_usage_metric 1%N 3 (Some 350) 10 (Some "{}") 1000 2000))
    by reflexivity.
  exact (apply_calls_order_independent _ _ _ _ _ _ _ Hperm H1 H2 Hr1).
Defined.

(** With arguments that are not NULL, [increment_usage_metric] goes through
    exactly in these cases: the key has no row and the drawn [id] is unused,
    or the key has a row and each of the three sums stays within the 32-bit
    [integer] range (a NULL [tokens_used] has no sum to check). *)
Lemma increment_usage_metric_ok_iff (fresh : uuid) (now : timestamptz)
    (d : Z) (p s : string) (u tk c : Z) (t : daily_usage_metrics) :
  (∃ t', increment_usage_metric fresh now d p s u tk c t = Ok t')
  ↔ match t !! (d, p, s) with
    | None => metric_id_taken fresh t = false
    | Some r =>
        int4 (usage_count r + u)
        ∧ (∀ x, tokens_used r = Some x → int4 (x + tk))
        ∧ int4 (estimated_cost_cents r + c)
    end.
Proof.
  split; [|apply increment_usage_metric_succeeds].
  intros [t' H]. unfold increment_usage_metric in H.
  destruct (t !! (d, p, s)) as [r|].
  - apply bind_Ok in H as (r' & Hacc & _). unfold accumulate in Hacc.
    apply bind_Ok in Hacc as (u' & [-> Hu]%int4_add_Ok & Hacc).
    apply bind_Ok in Hacc as (t0 & Ht & Hacc).
    apply bind_Ok in Hacc as (c' & [-> Hc]%int4_add_Ok & _).
    split; [done|]. split; [|done].
    intros x Hx. rewrite Hx in Ht. simpl in Ht.
    apply bind_Ok in Ht as (y & [-> Hy]%int4_add_Ok & _). done.
  - by destruct (metric_id_taken fresh t).
Qed.

(** At the bound: one more use on a row that holds 2147483647 raises. *)
Example increment_usage_metric_at_bound :
  increment_usage_metric 2%N 10 9436 "openai" "chat" 1 0 0
    {[ openai_chat := full_row ]} = Err numeric_value_out_of_range
  ∧ ∃ t', increment_usage_metric 2%N 10 9436 "openai" "chat" 0 5 1
            {[ openai_chat := full_row ]} = Ok t'.
Proof.
  split; [reflexivity|].
  apply increment_usage_metric_ok_iff.
  replace (({[ openai_chat := full_row ]} : daily_usage_metrics)
             !! (9436, "openai", "chat")) with (Some full_row) by reflexivity.
  split; [by vm_compute|]. split; [by intros x [=]|by vm_compute].
Qed.

(** ** JobQueue: calls that cannot raise *)

(** X14. On a queue built from the empty one by calls that follow the
    worker protocol, [complete_job] never raises, whatever its arguments,
    for any clock between the epoch and 2^62 microseconds after it: the
    retry counts stay far from the bounds of [integer] and of the backoff
    interval. *)
Theorem complete_job_never_raises h (q : job_queue) rs now i s e :
  run h ∅ = Ok (q, rs) →
  obeys h ∅ = true →
  0 ≤ now ≤ 2 ^ 62 →
  ∃ q', complete_job now i s e q = Ok q'.
Proof.
  intros Hrun Hob Hnow. unfold complete_job.
  destruct (q !! i) as [j|] eqn:Hq; [|eauto].
  destruct s; [eauto|].
  destruct (reachable_well_formed _ _ _ Hrun _ _ Hq) as (Hmr & Hrc & _).
  destruct (reachable_retry_budget _ _ _ Hrun Hob _ _ Hq) as [Hle _].
  destruct (mark_failed_succeeds now e j ltac:(lia) Hnow) as (j' & ->).
  simpl. eauto.
Qed.

Lemma complete_job_never_raises_witness :
  ∃ q', complete_job 500000000 8%N false (Some "again")
          {[ 8%N := worn_out_job ]} = Ok q'.
Proof.
  destruct history_four_failures_runs as (rs & Hrun & Hob).
  apply (complete_job_never_raises _ _ _ _ _ _ _ Hrun Hob).
  vm_compute. split; discriminate.
Defined.

(** ** UsageMeter: NULL arguments *)

(** X12. Called with any arguments, NULL or not, [increment_usage_metric]
    goes through exactly in these cases: date, provider, service, usage
    count and cost are not NULL, and either the key has no row and the drawn
    [id] is unused, or the key has a row and the sums of usage count, of
    cost and, when neither the stored nor the given tokens are NULL, of
    tokens stay within the 32-bit [integer] range.  A NULL among the five
    raises a not-null violation; a NULL [p_tokens_used] leaves
    [tokens_used] NULL; with no NULL the call is the one of the other
    theorems. *)
Theorem increment_usage_metric_nullable_ok_iff (fresh : uuid) (now : timestamptz)
    (p_date : option Z) (p_provider p_service : option string)
    (p_usage_count p_tokens_used p_cost_cents : option Z)
    (t : daily_usage_metrics) :
  ((∃ t', increment_usage_metric_nullable fresh now p_date p_provider p_service
            p_usage_count p_tokens_used p_cost_cents t = Ok t')
   ↔ ∃ d p s u c,
       p_date = Some d ∧ p_provider = Some p ∧ p_service = Some s
       ∧ p_usage_count = Some u ∧ p_cost_cents = Some c
       ∧ match t !! (d, p, s) with
         | None => metric_id_taken fresh t = false
         | Some r =>
             int4 (usage_count r + u)
             ∧ (∀ tk x, p_tokens_used = Some tk → tokens_used r = Some x →
                  int4 (x + tk))
             ∧ int4 (estimated_cost_cents r + c)
         end)
  ∧ (p_date = None ∨ p_provider = None ∨ p_service = None
     ∨ p_usage_count = None ∨ p_cost_cents = None →
     increment_usage_metric_nullable fresh now p_date p_provider p_service
       p_usage_count p_tokens_used p_cost_cents t = Err not_null_violation)
  ∧ (∀ d p s t',
       p_date = Some d → p_provider = Some p → p_service = Some s →
       p_tokens_used = None →
       increment_usage_metric_nullable fresh now p_date p_provider p_service
         p_usage_count p_tokens_used p_cost_cents t = Ok t' →
       ∃ r', t' !! (d, p, s) = Some r' ∧ tokens_used r' = None)
  ∧ (∀ d p s u tk c,
       increment_usage_metric_nullable fresh now (Some d) (Some p) (Some s)
         (Some u) (Some tk) (Some c) t
       = increment_usage_metric fresh now d p s u tk c t).
Proof.
  split; [|split; [|split; [|done]]].
  - destruct p_date as [d|], p_provider as [p|], p_service as [s|],
      p_usage_count as [u|], p_cost_cents as [c|]; simpl;
      try (split;
           [by intros [? [=]]
           |intros (? & ? & ? & ? & ? & ? & ? & ? & ? & ? & ?); done]).
    destruct p_tokens_used as [tk|].
    + rewrite increment_usage_metric_ok_iff. split.
      * intros H. exists d, p, s, u, c. repeat split.
        destruct (t !! (d, p, s)) as [r|]; [|done].
        destruct H as (Hu & Ht & Hc). split; [done|]. split; [|done].
        intros tk' x [= <-]. apply Ht.
      * intros (d' & p' & s' & u' & c' & [= <-] & [= <-] & [= <-] & [= <-]
                & [= <-] & H).
        destruct (t !! (d, p, s)) as [r|]; [|done].
        destruct H as (Hu & Ht & Hc). split; [done|]. split; [|done].
        intros x Hx. by apply (Ht tk).
    + split.
      * intros [t' H]. exists d, p, s, u, c. repeat split.
        destruct (t !! (d, p, s)) as [r|].
        -- apply bind_Ok in H as (u' & [-> Hu]%int4_add_Ok & H).
           apply bind_Ok in H as (c' & [-> Hc]%int4_add_Ok & _).
           split; [done|]. split; [by intros tk x [=]|done].
        -- by destruct (metric_id_taken fresh t).
      * intros (d' & p' & s' & u' & c' & [= <-] & [= <-] & [= <-] & [= <-]
                & [= <-] & H).
        destruct (t !! (d, p, s)) as [r|].
        -- destruct H as (Hu & _ & Hc). unfold int4_add.
           rewrite !bool_decide_eq_true_2 by done. simpl. eauto.
        -- rewrite H. eauto.
  - destruct p_date, p_provider, p_service, p_usage_count, p_cost_cents;
      simpl; try done.
    intros [?|[?|[?|[?|?]]]]; done.
  - intros d p s t' -> -> -> ->.
    destruct p_usage_count as [u|], p_cost_cents as [c|]; simpl; try done.
    destruct (t !! (d, p, s)) as [r|].
    + intros H. apply bind_Ok in H as (u' & _ & H).
      apply bind_Ok in H as (c' & _ & [= <-]).
      eexists. by rewrite lookup_insert_eq.
    + destruct (metric_id_taken fresh t); [done|]. intros [= <-].
      eexists. by rewrite lookup_insert_eq.
Qed.

(** A NULL usage count raises although the key has a row; a NULL token
    count commits and leaves the stored tokens NULL. *)
Example increment_usage_metric_nullable_sample :
  increment_usage_metric_nullable 2%N 2000 (Some 9436) (Some "openai")
    (Some "chat") None (Some 0) (Some 0) metrics_sample
    = Err not_null_violation
  ∧ increment_usage_metric_nullable 2%N 2000 (Some 9436) (Some "openai")
      (Some "chat") (Some 1) None (Some 5) metrics_sample
    = Ok {[ openai_chat := mk_usage_metric 1%N 6 None 35 (Some "{}") 1000 2000 ]}.
Proof. split; reflexivity. Qed.

(** ** JobQueue: never before its time *)

Lemma power2_minutes_nonneg n d : power2_minutes n = Ok d → 0 ≤ d.
Proof.
  unfold power2_minutes.
  destruct (1024 <=? n); [done|]. destruct (n <? -1074); [done|].
  destruct (0 <=? n) eqn:Hn.
  - apply Z.leb_le in Hn. destruct (_ <=? int8_max); [|done].
    intros [= <-]. pose proof (Z.pow_pos_nonneg 2 n).
    unfold USECS_PER_MINUTE. lia.
  - apply Z.leb_gt in Hn. intros [= <-]. unfold rint_div.
    assert (Hb : 0 < 2 ^ (- n)) by (apply Z.pow_pos_nonneg; lia).
    assert (Hq : 0 ≤ USECS_PER_MINUTE / 2 ^ (- n))
      by (apply Z.div_pos; [unfold USECS_PER_MINUTE; lia|done]).
    simpl. repeat case_match; lia.
Qed.

(** While [complete_job] is only called on [processing] jobs and the clock
    does not run backwards, a job is never scheduled before a time [s] it
    was once scheduled for, and is not handed out before [s]. *)
Lemma run_not_early i s h : ∀ (q q' : job_queue) rs T,
  (∀ j, q !! i = Some j →
     s ≤ scheduled_at j ∧ (status j = processing → s ≤ T)) →
  clock_ordered T h = true →
  obeys h q = true →
  Forall (fun c : timestamptz * op => enqueues i c.2 = false) h →
  run h q = Ok (q', rs) →
  Forall (fun t => s ≤ t) (claim_times i h rs).
Proof.
  induction h as [|[t o] h IH]; intros q q' rs T Hinv Hclock Hob Hh H.
  - simpl. constructor.
  - simpl in H, Hclock, Hob.
    apply bind_Ok in H as ([q1 r] & H1 & H).
    apply bind_Ok in H as ([q2 rs2] & H2 & [= <- <-]).
    rewrite H1 in Hob.
    apply andb_true_iff in Hob as [Hprot Hob].
    apply andb_true_iff in Hclock as [HT%Z.leb_le Hclock].
    apply Forall_cons in Hh as [Ho Hh]. simpl in Ho.
    assert (Hinv1 : ∀ j, q1 !! i = Some j →
              s ≤ scheduled_at j ∧ (status j = processing → s ≤ t)).
    { intros j' Hq1.
      destruct (exec_row _ _ _ _ _ _ _ H1 Hq1)
        as [Hq|[(_ & ty & pl & pr & sch & -> & _)|
                [(j & Hq & _ & [_ Hdue]%eligible_spec & ->)|
                 (j & sc & e & Hq & -> & Hj')]]].
      - destruct (Hinv _ Hq) as [Hs Hp]. split; [done|].
        intros Hst. specialize (Hp Hst). lia.
      - simpl in Ho. by rewrite bool_decide_eq_true_2 in Ho.
      - destruct (Hinv _ Hq) as [Hs _]. simpl. split; [done|]. lia.
      - simpl in Hprot. rewrite Hq in Hprot.
        apply bool_decide_eq_true in Hprot.
        destruct (Hinv _ Hq) as [Hs Hp]. specialize (Hp Hprot).
        destruct sc.
        + subst j'. simpl. split; [done|]. done.
        + apply mark_failed_Ok in Hj' as (_ & Hst & Hlt & Hge & _).
          split.
          * destruct (Z.lt_ge_cases (retry_count j) (max_retries j)) as [Hb|Hb].
            -- destruct (Hlt Hb) as (d & Hd%power2_minutes_nonneg & ->). lia.
            -- rewrite (Hge Hb). done.
          * rewrite Hst. by destruct (_ <? _). }
    simpl. destruct (claims i r) eqn:Hc.
    + constructor; [|by eapply IH].
      destruct (exec_claims _ _ _ _ _ _ H1 Hc) as (j & Hq & [_ Hdue]%eligible_spec).
      destruct (Hinv _ Hq) as [Hs _]. lia.
    + by eapply IH.
Qed.

(** X15. A job is not run before its time: after [enqueue_job] has stored a
    job scheduled at [sch], in any history of later calls in which
    [complete_job] is only called on [processing] jobs, the clock does not
    run backwards and the [id] is not drawn again, every [get_next_job]
    that hands out the job is made at [sch] or later. *)
Theorem enqueued_job_never_claimed_early fresh now ty pl pr sch
    (q q1 q' : job_queue) i h rs :
  enqueue_job fresh now ty pl pr sch q = Ok (q1, i) →
  clock_ordered now h = true →
  obeys h q1 = true →
  Forall (fun c : timestamptz * op => enqueues i c.2 = false) h →
  run h q1 = Ok (q', rs) →
  Forall (fun t => sch ≤ t) (claim_times i h rs).
Proof.
  unfold enqueue_job. destruct (q !! fresh) eqn:Hfresh; [done|].
  intros [= <- <-] Hclock Hob Hh Hrun.
  refine (run_not_early fresh sch h _ q' rs now _ Hclock Hob Hh Hrun).
  intros j. rewrite lookup_insert_eq. intros [= <-]. simpl. done.
Qed.

Lemma enqueued_job_never_claimed_early_witness :
  claim_times 8%N delayed_history delayed_run.2 = [100; 60000150]
  ∧ Forall (fun t => 100 ≤ t) (claim_times 8%N delayed_history delayed_run.2).
Proof.
  assert (Henq : enqueue_job 8%N 0 "send_email" "{}" 5 100 ∅
                 = Ok (delayed_queue, 8%N)) by (vm_compute; reflexivity).
  assert (Hclock : clock_ordered 0 delayed_history = true)
    by (vm_compute; reflexivity).
  assert (Hob : obeys delayed_history delayed_queue = true)
    by (vm_compute; reflexivity).
  assert (Hh : Forall (fun c : timestamptz * op => enqueues 8%N c.2 = false)
                 delayed_history) by (repeat constructor).
  assert (Hrun : run delayed_history delayed_queue
                 = Ok (delayed_run.1, delayed_run.2))
    by (vm_compute; reflexivity).
  split; [vm_compute; reflexivity|].
  exact (enqueued_job_never_claimed_early _ _ _ _ _ _ _ _ _ _ _ _
           Henq Hclock Hob Hh Hrun).
Defined.
